(** * ai-stories-generator: story composer, feed picker and orchestrator

    A shallow embedding of the three scripts under [scripts/]:
    [make_story.py] (cover-fit crop, greedy word wrap, text layout),
    [pick_ai_news.py] (feed filtering, de-duplication, ordering) and
    [gen_stories_from_urls.py] (the orchestrator's checks and its run
    of the composer).

    Python [str] values are lists of Unicode code points, Python [int]s
    are [Z], Python [float]s are binary64 primitive floats, paths are
    what pathlib makes of their text on POSIX.  Library and system
    calls whose result the scripts only pass along (glyph measurement,
    the keyword regex, [mkdir], the browser, the composer subprocess)
    are section variables, free to fail where the call can raise. *)

From Stdlib Require Import ZArith QArith Floats Uint63 String Ascii Decimal.
From stdpp Require Import base list gmap sets sorting.

Local Open Scope Z_scope.

(** ** Python strings *)

Module PyStr.

(** A [str] is its sequence of code points. *)
Abbreviation str := (list N).

(** An ASCII literal as a [str]. *)
Definition py (s : string) : str :=
  N_of_ascii <$> list_ascii_of_string s.

(** [str.isspace] on one code point; [split] and [strip] without
    arguments use the same table. *)
Definition is_space (c : N) : bool :=
  ((9 <=? c) && (c <=? 13) || (28 <=? c) && (c <=? 32)
   || (c =? 133) || (c =? 160) || (c =? 5760)
   || (8192 <=? c) && (c <=? 8202)
   || (c =? 8232) || (c =? 8233) || (c =? 8239) || (c =? 8287)
   || (c =? 12288))%N.

(** Truthiness of a string: [if s:]. *)
Definition truthy (s : str) : bool :=
  match s with [] => false | _ :: _ => true end.

Fixpoint lstrip (s : str) : str :=
  match s with
  | [] => []
  | c :: s' => if is_space c then lstrip s' else s
  end.

Fixpoint rstrip (s : str) : str :=
  match s with
  | [] => []
  | c :: s' =>
      match rstrip s' with
      | [] => if is_space c then [] else [c]
      | r => c :: r
      end
  end.

(** [s.strip()] *)
Definition strip (s : str) : str := rstrip (lstrip s).

(** [s.split()]: the maximal runs of non-whitespace, left to right.
    [cur] is the run being read. *)
Fixpoint split_from (cur : str) (s : str) : list str :=
  match s with
  | [] => if truthy cur then [cur] else []
  | c :: s' =>
      if is_space c
      then (if truthy cur then cur :: split_from [] s' else split_from [] s')
      else split_from (cur ++ [c]) s'
  end.

Definition split (s : str) : list str := split_from [] s.

(** [sep.join(parts)] *)
Fixpoint join (sep : str) (parts : list str) : str :=
  match parts with
  | [] => []
  | [p] => p
  | p :: rest => p ++ sep ++ join sep rest
  end.

Fixpoint starts_with (pre s : str) : bool :=
  match pre, s with
  | [], _ => true
  | _ :: _, [] => false
  | a :: pre', b :: s' => (a =? b)%N && starts_with pre' s'
  end.

(** [s.replace(old, new)] for a non-empty [old]: every occurrence found
    scanning left to right, occurrences not overlapping.  [skip] counts
    the characters of the occurrence just replaced that are still to be
    passed over. *)
Fixpoint replace_from (old new : str) (skip : nat) (s : str) : str :=
  match s with
  | [] => []
  | c :: s' =>
      match skip with
      | S k => replace_from old new k s'
      | O =>
          if starts_with old s
          then new ++ replace_from old new (length old - 1) s'
          else c :: replace_from old new 0 s'
      end
  end.

Definition replace (old new s : str) : str := replace_from old new 0 s.

(** [a < b] on strings: lexicographic on code points. *)
Fixpoint str_ltb (a b : str) : bool :=
  match a, b with
  | _, [] => false
  | [], _ :: _ => true
  | x :: a', y :: b' => (x <? y)%N || (x =? y)%N && str_ltb a' b'
  end.

(** [f"{i:02d}"] for a non-negative [i]. *)
Fixpoint digits (u : Decimal.uint) : str :=
  match u with
  | Nil => []
  | D0 u => 48%N :: digits u
  | D1 u => 49%N :: digits u
  | D2 u => 50%N :: digits u
  | D3 u => 51%N :: digits u
  | D4 u => 52%N :: digits u
  | D5 u => 53%N :: digits u
  | D6 u => 54%N :: digits u
  | D7 u => 55%N :: digits u
  | D8 u => 56%N :: digits u
  | D9 u => 57%N :: digits u
  end.

Definition format_02d (i : nat) : str :=
  let d := digits (Nat.to_uint i) in
  replicate (2 - length d) 48%N ++ d.

End PyStr.

Import PyStr.

(** ** The part of Pillow the composer relies on *)

Module Pil.

(** An image is its size and, for each pixel, whether it shows picture
    data ([backed]) or the zero fill that [crop] puts where its box
    leaves the image. *)
Record Image := mkImage {
  width : Z;
  height : Z;
  backed : Z -> Z -> bool
}.

Definition inside (w h x y : Z) : bool :=
  (0 <=? x) && (x <? w) && (0 <=? y) && (y <? h).

(** A decoded picture of the given size. *)
Definition picture (w h : Z) : Image := mkImage w h (inside w h).

(** [img.resize((nw, nh), LANCZOS)]; Pillow refuses an empty size. *)
Definition resize (img : Image) (nw nh : Z) : option Image :=
  if (0 <? nw) && (0 <? nh) then Some (picture nw nh) else None.

(** [img.crop((left, top, right, bottom))]: the result has the size of
    the box; what lies outside [img] is filled with zeros. *)
Definition crop (img : Image) (left top right bottom : Z) : option Image :=
  if (left <=? right) && (top <=? bottom)
  then Some (mkImage (right - left) (bottom - top)
               (fun x y => inside (right - left) (bottom - top) x y
                           && inside (width img) (height img) (x + left) (y + top)
                           && backed img (x + left) (y + top)))
  else None.

(** No pixel of the image is fill. *)
Definition borderless (img : Image) : Prop :=
  forall x y, 0 <= x < width img -> 0 <= y < height img -> backed img x y = true.

(** A loaded font: the file it came from and its size. *)
Record Font := mkFont { path : str; size : Z }.

End Pil.

Import Pil.

(** ** Python numbers *)

Module PyNum.

(** [float(z)] for [0 <= z < 2^53], where the conversion is exact. *)
Definition float_of_int (z : Z) : float := PrimFloat.of_uint63 (Uint63.of_Z z).

(** [int(x)]: truncation toward zero. *)
Definition int_of_float (x : float) : Z :=
  match Prim2SF x with
  | S754_finite s m e =>
      let a := if 0 <=? e then Z.shiftl (Z.pos m) e else Z.shiftr (Z.pos m) (- e) in
      if s then - a else a
  | _ => 0
  end.

(** [a / b] on ints (true division); [None] is ZeroDivisionError. *)
Definition true_div (a b : Z) : option float :=
  if b =? 0 then None else Some (PrimFloat.div (float_of_int a) (float_of_int b)).

(** [max(a, b)] on floats: the first argument unless the second is greater. *)
Definition fmax (a b : float) : float := if PrimFloat.ltb a b then b else a.

End PyNum.

Import PyNum.

(** ** pathlib, on POSIX *)

Module PyPath.

(** [s.split('/')]; [cur] is the piece being read. *)
Fixpoint split_sep (cur : str) (s : str) : list str :=
  match s with
  | [] => [cur]
  | c :: s' =>
      if (c =? 47)%N then cur :: split_sep [] s' else split_sep (cur ++ [c]) s'
  end.

(** A path as pathlib keeps it: the root (['/'], ['//'] or nothing) and
    the components. *)
Record PurePath := mkPath {
  root : str;
  parts : list str
}.

(** The root of a path text and what follows it: exactly two leading
    slashes are kept as they are, any other number counts as one. *)
Definition splitroot (s : str) : str * str :=
  if starts_with (py "//") s && negb (starts_with (py "///") s)
  then (py "//", drop 2 s)
  else if starts_with (py "/") s then (py "/", drop 1 s)
  else ([], s).

(** [Path(s)]: empty components and ['.'] components are dropped. *)
Definition Path (s : str) : PurePath :=
  mkPath (splitroot s).1
    (filter (fun x => x ≠ [] ∧ x ≠ py ".") (split_sep [] (splitroot s).2)).

(** [str(p)] *)
Definition path_str (p : PurePath) : str :=
  match root p, parts p with
  | [], [] => py "."
  | r, ps => r ++ join (py "/") ps
  end.

(** [p / s]: a rooted [s] replaces [p]. *)
Definition joinpath (p : PurePath) (s : str) : PurePath :=
  let q := Path s in
  if truthy (root q) then q else mkPath (root p) (parts p ++ parts q).

End PyPath.

Import PyPath.

(** ** make_story.py *)

Module MakeStory.

Definition W : Z := 1080.
Definition H : Z := 1920.

(** [fit_cover(img, w, h)]: scale by the larger of the two axis ratios,
    then crop a centred [w] by [h] box.  The ratios, their maximum and
    the scaled sizes are computed in floating point and truncated by
    [int]. *)
Definition fit_cover (img : Image) (w h : Z) : option Image :=
  let iw := width img in
  let ih := height img in
  rw ← true_div w iw;
  rh ← true_div h ih;
  let scale := fmax rw rh in
  let nw := int_of_float (PrimFloat.mul (float_of_int iw) scale) in
  let nh := int_of_float (PrimFloat.mul (float_of_int ih) scale) in
  img' ← resize img nw nh;
  let left := (nw - w) `div` 2 in
  let top := (nh - h) `div` 2 in
  crop img' left top (left + w) (top + h).

(** One JSON item; a field is [None] when its key is absent. *)
Record Item := mkItem {
  title : option str;
  url : option str;
  subtitle : option str;
  impact : option str
}.

(** [item.get(key, '')] *)
Definition get (field : option str) (dflt : str) : str := default dflt field.

Definition rgba : Type := Z * Z * Z * Z.

(** What is done to the canvas, in order. *)
Inductive Op :=
| GaussianBlur (radius : Z)
| AlphaComposite (w h : Z) (colour : rgba) (dest : Z * Z)
| DrawText (xy : Z * Z) (text : str) (font : Font) (fill : rgba).

Record Canvas := mkCanvas { background : Image; ops : list Op }.

Section Composer.

(** [draw.textlength(text, font=font)], in pixels. *)
Variable textlength : Font -> str -> Q.
(** [ImageFont.truetype(path, size=size)]; [None] when it raises. *)
Variable truetype : str -> Z -> option Font.
(** [ImageFont.load_default()] *)
Variable load_default : Font.

Definition dejavu_bold : str := py "/usr/share/fonts/truetype/dejavu/DejaVuSans-Bold.ttf".
Definition dejavu : str := py "/usr/share/fonts/truetype/dejavu/DejaVuSans.ttf".

Fixpoint first_font (paths : list str) (sz : Z) : Font :=
  match paths with
  | [] => load_default
  | p :: rest =>
      match truetype p sz with
      | Some f => f
      | None => first_font rest sz
      end
  end.

Definition load_font (sz : Z) (bold : bool) : Font :=
  first_font [if bold then dejavu_bold else dejavu; dejavu] sz.

(** The [for w in words] loop of [wrap_text]; the state is
    [(lines, cur)]. *)
Fixpoint wrap_loop (font : Font) (max_width : Z) (words : list str)
    (lines : list str) (cur : str) : list str * str :=
  match words with
  | [] => (lines, cur)
  | w :: rest =>
      let test := strip (cur ++ py " " ++ w) in
      let tw := textlength font test in
      if Qle_bool tw (inject_Z max_width)
      then wrap_loop font max_width rest lines test
      else wrap_loop font max_width rest
             (if truthy cur then lines ++ [cur] else lines) w
  end.

Definition wrap_text (text : str) (font : Font) (max_width : Z) : list str :=
  let '(lines, cur) := wrap_loop font max_width (split text) [] [] in
  if truthy cur then lines ++ [cur] else lines.

(** [for ln in lines: draw.text((x, y), ln, ...); y += step] *)
Fixpoint draw_lines (lines : list str) (x y : Z) (font : Font) (fill : rgba)
    (step : Z) (drawn : list Op) : list Op * Z :=
  match lines with
  | [] => (drawn, y)
  | ln :: rest =>
      draw_lines rest x (y + step) font fill step
        (drawn ++ [DrawText (x, y) ln font fill])
  end.

(** [render(item, out_path)] up to the final save; [shot] is the
    screenshot as opened and converted to RGB. *)
Definition render (shot : Image) (item : Item) : option Canvas :=
  bg ← fit_cover shot W H;
  let cv := [GaussianBlur 2; AlphaComposite W H (0, 0, 0, 140) (0, 0)] in
  let title_font := load_font 64 true in
  let sub_font := load_font 42 false in
  let impact_font := load_font 48 true in
  let small_font := load_font 28 false in
  let margin := 70 in
  let maxw := W - 2 * margin in
  let y := 140 in
  let title_lines := take 3 (wrap_text (strip (get (title item) [])) title_font maxw) in
  let '(cv, y) :=
    draw_lines title_lines margin y title_font (255, 255, 255, 255)
      (size title_font + 10) cv in
  let y := y + 20 in
  let subtitle := strip (get (subtitle item) []) in
  let '(cv, y) :=
    if truthy subtitle
    then
      let sub_lines := take 3 (wrap_text subtitle sub_font maxw) in
      draw_lines sub_lines margin y sub_font (230, 230, 230, 255)
        (size sub_font + 8) cv
    else (cv, y) in
  let impact := strip (get (impact item) []) in
  let cv :=
    if truthy impact
    then
      let bar_h := 220 in
      let bar_y := H - bar_h - 170 in
      let cv := cv ++ [AlphaComposite W bar_h (0, 0, 0, 170) (0, bar_y)] in
      let y2 := bar_y + 40 in
      let lines := take 3 (wrap_text impact impact_font maxw) in
      fst (draw_lines lines margin y2 impact_font (255, 255, 255, 255)
             (size impact_font + 10) cv)
    else cv in
  let url := get (url item) [] in
  let footer := replace (py "http://") [] (replace (py "https://") [] url) in
  Some (mkCanvas bg
          (cv ++ [DrawText (margin, H - 70) (take 60 footer) small_font
                    (200, 200, 200, 255)])).

End Composer.

(** The strings drawn on a canvas, in drawing order. *)
Definition texts (l : list Op) : list str :=
  omap (fun o => match o with DrawText _ t _ _ => Some t | _ => None end) l.

End MakeStory.

(** ** pick_ai_news.py *)

Module PickAiNews.

(** An aware UTC [datetime] is an instant: microseconds since
    0001-01-01T00:00:00Z.  [datetime.max] is the last microsecond of
    the year 9999. *)
Abbreviation datetime := Z.

Definition MAX_US : Z := 3652059 * 86400 * 1000000.

(** [now - timedelta(hours=hours)]; [None] is OverflowError. *)
Definition sub_hours (now : datetime) (hours : Z) : option datetime :=
  let r := now - hours * 3600 * 1000000 in
  if (0 <=? r) && (r <? MAX_US) then Some r else None.

(** The first six fields of a [time.struct_time], the ones
    [parse_dt] reads. *)
Record struct_time := mkTime {
  tm_year : Z;
  tm_mon : Z;
  tm_mday : Z;
  tm_hour : Z;
  tm_min : Z;
  tm_sec : Z
}.

(** The proleptic Gregorian calendar of the [datetime] module. *)
Definition is_leap (y : Z) : bool :=
  (y `mod` 4 =? 0) && (negb (y `mod` 100 =? 0) || (y `mod` 400 =? 0)).

Definition days_in_month (y m : Z) : Z :=
  if m =? 2 then (if is_leap y then 29 else 28)
  else if (m =? 4) || (m =? 6) || (m =? 9) || (m =? 11) then 30
  else 31.

Definition days_before_year (y : Z) : Z :=
  let y' := y - 1 in y' * 365 + y' `div` 4 - y' `div` 100 + y' `div` 400.

Definition days_before_month (y m : Z) : Z :=
  nth (Z.to_nat (m - 1)) [0; 31; 59; 90; 120; 151; 181; 212; 243; 273; 304; 334] 0
  + (if (2 <? m) && is_leap y then 1 else 0).

(** The ordinal of a day, 0001-01-01 being day 1. *)
Definition ymd2ord (y m d : Z) : Z :=
  days_before_year y + days_before_month y m + d.

(** The instant the fields name, in microseconds since
    0001-01-01T00:00:00Z; the arithmetic is carried through also for
    fields a [datetime] cannot hold. *)
Definition instant (t : struct_time) : Z :=
  ((((ymd2ord (tm_year t) (tm_mon t) (tm_mday t) - 1) * 24 + tm_hour t) * 60
    + tm_min t) * 60 + tm_sec t) * 1000000.

(** [dt.datetime] applied to the first six fields of [t], with
    [tzinfo=dt.timezone.utc]; [None] is the ValueError raised for a
    year outside 1..9999 or any other field out of range. *)
Definition make_datetime (t : struct_time) : option datetime :=
  if (1 <=? tm_year t) && (tm_year t <=? 9999)
     && (1 <=? tm_mon t) && (tm_mon t <=? 12)
     && (1 <=? tm_mday t) && (tm_mday t <=? days_in_month (tm_year t) (tm_mon t))
     && (0 <=? tm_hour t) && (tm_hour t <=? 23)
     && (0 <=? tm_min t) && (tm_min t <=? 59)
     && (0 <=? tm_sec t) && (tm_sec t <=? 59)
  then Some (instant t)
  else None.

(** A feedparser entry.  An attribute is [None] when it is absent (or
    is Python's None). *)
Record Entry := mkEntry {
  e_title : option str;
  e_link : option str;
  e_summary : option str;
  published_parsed : option struct_time;
  updated_parsed : option struct_time
}.

(** What [feedparser.parse(url)] returns: the feed's own title and link
    and its entries. *)
Record Parsed := mkParsed {
  feed_title : option str;
  feed_link : option str;
  entries : list Entry
}.

Record Candidate := mkCandidate {
  title : str;
  url : str;
  source : str;
  published : option str
}.

(** [a or b] where [a] is a string or None. *)
Definition or_else (a : option str) (b : str) : str :=
  match a with
  | Some s => if truthy s then s else b
  | None => b
  end.

(** The time tuple [parse_dt] picks: [published_parsed or
    updated_parsed]. *)
Definition entry_time (e : Entry) : option struct_time :=
  match published_parsed e with
  | Some t => Some t
  | None => updated_parsed e
  end.

(** [parse_dt(entry)]: [Some None] is Python's None (no time tuple),
    [Some (Some d)] the datetime [d], and [None] the ValueError of the
    datetime constructor. *)
Definition parse_dt (e : Entry) : option (option datetime) :=
  match entry_time e with
  | None => Some None
  | Some t => d ← make_datetime t; Some (Some d)
  end.

(** [read_feeds], from the lines of the feed file. *)
Fixpoint read_feeds (lines : list str) : list str :=
  match lines with
  | [] => []
  | ln :: rest =>
      let s := strip ln in
      if negb (truthy s) || starts_with (py "#") s
      then read_feeds rest
      else s :: read_feeds rest
  end.

(** The key of the final sort: [x['published'] or '']. *)
Definition sort_key (c : Candidate) : str := or_else (published c) [].

(** The de-duplication loop; the state is [(seen, deduped)]. *)
Fixpoint dedupe_loop (cands : list Candidate) (seen : gset str)
    (deduped : list Candidate) : list Candidate :=
  match cands with
  | [] => deduped
  | c :: rest =>
      if decide (url c ∈ seen)
      then dedupe_loop rest seen deduped
      else dedupe_loop rest ({[url c]} ∪ seen) (deduped ++ [c])
  end.

Definition dedupe (cands : list Candidate) : list Candidate :=
  dedupe_loop cands ∅ [].

(** [l.sort(key=key, reverse=True)].  Python's sort is stable also when
    reversed, and a stable sort has one possible result, so any stable
    algorithm models it; this one inserts each element in front of the
    sorted rest, after the elements with a strictly greater key. *)
Section Sort.
Context {A : Type} (key : A -> str).

Fixpoint insert_desc (x : A) (l : list A) : list A :=
  match l with
  | [] => [x]
  | y :: l' =>
      if str_ltb (key x) (key y) then y :: insert_desc x l' else x :: l
  end.

Definition sort_reverse (l : list A) : list A := foldr insert_desc [] l.
End Sort.

(** [l[:n]] *)
Definition slice_to {A} (l : list A) (n : Z) : list A :=
  if 0 <=? n then take (Z.to_nat n) l
  else take (length l - Z.to_nat (- n)) l.

Section Picker.

(** [KEYWORDS.search(blob)] is a match. *)
Variable KEYWORDS_search : str -> bool.
(** [when.isoformat()] *)
Variable isoformat : datetime -> str.
(** [feedparser.parse(url)] *)
Variable parse : str -> Parsed.

(** The body of the loop over entries: [Some (Some c)] when the
    candidate [c] is appended, [Some None] when the entry is passed
    over, [None] when [parse_dt] raises. *)
Definition candidate_of (cutoff : datetime) (src : str) (e : Entry)
    : option (option Candidate) :=
  let title := strip (or_else (e_title e) []) in
  let link := strip (or_else (e_link e) []) in
  let summary := strip (or_else (e_summary e) []) in
  let blob := title ++ py " " ++ summary in
  if negb (KEYWORDS_search blob) then Some None
  else
    when ← parse_dt e;
    if match when with Some t => t <? cutoff | None => false end then Some None
    else if negb (truthy link) then Some None
    else Some (Some (mkCandidate title link src
                       ((fun t => replace (py "+00:00") (py "Z") (isoformat t))
                          <$> when))).

(** The loop over the entries of one feed; [None] when an entry makes
    it raise. *)
Fixpoint scan_entries (cutoff : datetime) (src : str) (es : list Entry)
    (cands : list Candidate) : option (list Candidate) :=
  match es with
  | [] => Some cands
  | e :: rest =>
      r ← candidate_of cutoff src e;
      scan_entries cutoff src rest
        match r with
        | Some c => cands ++ [c]
        | None => cands
        end
  end.

Fixpoint scan_feeds (cutoff : datetime) (feeds : list str)
    (cands : list Candidate) : option (list Candidate) :=
  match feeds with
  | [] => Some cands
  | u :: rest =>
      let d := parse u in
      let src := or_else (feed_title d) (or_else (feed_link d) u) in
      cands ← scan_entries cutoff src (entries d) cands;
      scan_feeds cutoff rest cands
  end.

(** [main], from the lines of the feed file ([None] when reading it
    raises), the two options and the clock, to the list that is
    printed; [None] when it raises. *)
Definition main (feed_file : option (list str)) (hours limit : Z) (now : datetime)
    : option (list Candidate) :=
  cutoff ← sub_hours now hours;
  feed_lines ← feed_file;
  cands ← scan_feeds cutoff (read_feeds feed_lines) [];
  let deduped := dedupe cands in
  let deduped := sort_reverse sort_key deduped in
  Some (slice_to deduped limit).

End Picker.

End PickAiNews.

(** ** gen_stories_from_urls.py *)

Module GenStories.

(** A JSON item: an object with string values. *)
Abbreviation Item := (gmap str str).

Record Args := mkArgs {
  items : str;
  shots_dir : str;
  out_dir : str;
  browser : str;
  timeout : Z;
  skip_screenshots : bool
}.

(** How a run ends early: [sys.exit(msg)] writes [msg] to standard
    error, an uncaught exception writes a traceback. *)
Inductive Stop :=
| SysExit (msg : str)
| Uncaught.

(** The process exit status of an early end. *)
Definition exit_code (s : Stop) : Z := 1.

(** The world the orchestrator acts on: the path texts that name
    something that exists, and the composer command lines run so far.
    Printing is left out: standard output and standard error are taken
    to accept what is written to them. *)
Record World := mkWorld {
  files : gset str;
  composer_runs : list (list str)
}.

Inductive result (A : Type) :=
| Ok (a : A)
| Err (s : Stop).
Arguments Ok {A} a.
Arguments Err {A} s.

(** Computations that read and change the world and may end the run. *)
Definition M (A : Type) : Type := World -> World * result A.

Definition ret {A} (a : A) : M A := fun w => (w, Ok a).

Definition bind {A B} (m : M A) (k : A -> M B) : M B :=
  fun w =>
    match m w with
    | (w', Ok a) => k a w'
    | (w', Err s) => (w', Err s)
    end.

Definition sys_exit {A} (msg : str) : M A := fun w => (w, Err (SysExit msg)).

(** A call into the operating system or a library, from the paths that
    exist to the paths that exist afterwards and the value returned or
    the way the call ended the run. *)
Definition Sys (A : Type) : Type := gset str -> gset str * result A.

Definition call {A} (f : Sys A) : M A :=
  fun w =>
    let '(fs, r) := f (files w) in
    (mkWorld fs (composer_runs w), r).

Notation "'run' x <- m ; k" := (bind m (fun x => k))
  (at level 10, x name, m at level 100, k at level 200).
Notation "m ;; k" := (bind m (fun _ => k))
  (at level 100, k at level 200, right associativity).

(** [f"shot_{i:02d}.png"] *)
Definition shot_name (i : nat) : str := py "shot_" ++ format_02d i ++ py ".png".

(** [str(n)] for an int. *)
Definition str_of_int (n : Z) : str :=
  match n with
  | Z0 => py "0"
  | Z.pos p => digits (Pos.to_uint p)
  | Z.neg p => py "-" ++ digits (Pos.to_uint p)
  end.

Definition msg_not_found (p : str) : str :=
  py "Arquivo n" ++ [227%N] ++ py "o encontrado: " ++ p.

Definition msg_empty : str :=
  py "items.json est" ++ [225%N] ++ py " vazio.".

Definition msg_missing_shot (p : str) : str :=
  py "Screenshot ausente: " ++ p ++ [10%N]
  ++ py "Rode sem --skip-screenshots ou verifique shots/.".

Definition msg_no_composer (p : str) : str :=
  py "make_story.py n" ++ [227%N] ++ py "o encontrado em " ++ p.

Definition msg_composer_failed (rc : Z) : str :=
  py "make_story.py falhou (c" ++ [243%N] ++ py "digo " ++ str_of_int rc ++ py ")".

Section Orchestrator.

(** Whether [os.stat] fails on a path with an error that [Path.exists]
    does not take for absence and lets through: up to Python 3.13
    every [OSError] but ENOENT, ENOTDIR, EBADF and ELOOP, for instance
    the one for a name that is too long. *)
Variable stat_raises : gset str -> str -> bool.
(** [json.loads(path.read_text())]; [None] when it raises. *)
Variable load_json : gset str -> str -> option (list Item).
(** [path.mkdir(parents=True, exist_ok=True)], which raises for
    instance when the path is an existing regular file. *)
Variable mkdir : str -> Sys unit.
(** [take_screenshot(url, out_path, browser, timeout)] *)
Variable take_screenshot : str -> str -> str -> Z -> Sys unit.
(** The [NamedTemporaryFile] block: the list is dumped to a new file,
    whose name is returned. *)
Variable write_temp : list Item -> Sys str.
(** [subprocess.run(cmd, text=True).returncode] *)
Variable run_composer : list str -> Sys Z.
(** [Path(p).unlink(missing_ok=True)] *)
Variable unlink : str -> Sys unit.
(** Step 5: the stories found by [out_dir.glob], each sized with
    [stat], are listed. *)
Variable summary : str -> Sys unit.
(** [sys.executable] and [Path(__file__).resolve().parent]. *)
Variable executable : str.
Variable script_dir : PurePath.

(** [p.exists()] *)
Definition path_exists (p : PurePath) : M bool :=
  fun w =>
    if bool_decide (path_str p ∈ files w) then (w, Ok true)
    else if stat_raises (files w) (path_str p) then (w, Err Uncaught)
    else (w, Ok false).

(** Step 1: load items.json. *)
Definition load_items (args : Args) : M (list Item) :=
  let items_path := Path (items args) in
  run found <- path_exists items_path;
  if negb found then sys_exit (msg_not_found (path_str items_path))
  else
    fun w =>
      match load_json (files w) (path_str items_path) with
      | None => (w, Err Uncaught)
      | Some [] => (w, Err (SysExit msg_empty))
      | Some its => (w, Ok its)
      end.

(** The two directories are made before anything else is done with
    the items. *)
Definition make_dirs (args : Args) : M unit :=
  call (mkdir (path_str (Path (shots_dir args)))) ;;
  call (mkdir (path_str (Path (out_dir args)))).

(** Step 2: the capture loop, [i] being the index of the head. *)
Fixpoint capture (args : Args) (i : nat) (its : list Item) : M unit :=
  match its with
  | [] => ret tt
  | item :: rest =>
      let url := strip (default [] (item !! py "url")) in
      if negb (truthy url) then capture args (S i) rest
      else
        let out_path := joinpath (Path (shots_dir args)) (shot_name i) in
        call (take_screenshot url (path_str out_path) (browser args) (timeout args)) ;;
        capture args (S i) rest
  end.

(** Step 3: the items with their [screenshot] field. *)
Fixpoint augment (args : Args) (i : nat) (its : list Item)
    (augmented : list Item) : M (list Item) :=
  match its with
  | [] => ret augmented
  | item :: rest =>
      let shot_path := joinpath (Path (shots_dir args)) (shot_name i) in
      run found <- path_exists shot_path;
      if negb found then sys_exit (msg_missing_shot (path_str shot_path))
      else augment args (S i) rest
             (augmented ++ [<[py "screenshot" := path_str shot_path]> item])
  end.

(** Step 4: hand the augmented list to make_story.py. *)
Definition compose (args : Args) (augmented : list Item) : M unit :=
  run tmp_path <- call (write_temp augmented);
  let make_story := joinpath script_dir (py "make_story.py") in
  run found <- path_exists make_story;
  if negb found then sys_exit (msg_no_composer (path_str make_story))
  else
    let cmd := [executable; path_str make_story; py "--in"; tmp_path;
                py "--out-dir"; path_str (Path (out_dir args))] in
    run rc <- (fun w =>
                let '(fs, r) := run_composer cmd (files w) in
                (mkWorld fs (composer_runs w ++ [cmd]), r));
    call (unlink (path_str (Path tmp_path))) ;;
    if negb (rc =? 0) then sys_exit (msg_composer_failed rc)
    else ret tt.

Definition main (args : Args) : M unit :=
  run its <- load_items args;
  make_dirs args ;;
  (if skip_screenshots args then ret tt else capture args 1 its) ;;
  run augmented <- augment args 1 its [];
  compose args augmented ;;
  call (summary (path_str (Path (out_dir args)))).

End Orchestrator.

End GenStories.

(** * Properties *)

(** ** Splitting, stripping and joining *)

Module PyStrFacts.

(** A word: non-empty and free of whitespace. *)
Definition is_word (w : str) : Prop :=
  w ≠ [] ∧ Forall (fun c => is_space c = false) w.

Lemma truthy_true (s : str) : truthy s = true ↔ s ≠ [].
Proof. destruct s; simpl; split; congruence. Qed.

Lemma truthy_false (s : str) : truthy s = false ↔ s = [].
Proof. destruct s; simpl; split; congruence. Qed.

Example split_example : split (py "  one two   three ") = [py "one"; py "two"; py "three"].
Proof. reflexivity. Qed.

Example strip_example : strip (py "  one two  ") = py "one two".
Proof. reflexivity. Qed.

Example replace_example : replace (py "aa") (py "b") (py "aaa") = py "ba".
Proof. reflexivity. Qed.

Example format_02d_example :
  format_02d 7 = py "07" ∧ format_02d 12 = py "12" ∧ format_02d 123 = py "123".
Proof. by repeat split. Qed.

Lemma split_from_end (cur : str) :
  split_from cur [] = if truthy cur then [cur] else [].
Proof. reflexivity. Qed.

(** Reading past a whitespace character closes the run being read. *)
Lemma split_from_gap (cur a b : str) (c : N) :
  is_space c = true →
  split_from cur (a ++ c :: b) = split_from cur a ++ split b.
Proof.
  intros Hc. revert cur.
  induction a as [|x a IH]; intros cur; simpl.
  - rewrite Hc. unfold split. by destruct (truthy cur).
  - destruct (is_space x); [|apply IH].
    destruct (truthy cur); simpl; by rewrite IH.
Qed.

(** Reading a run of non-whitespace extends the run being read. *)
Lemma split_from_run (cur w s : str) :
  Forall (fun c => is_space c = false) w →
  split_from cur (w ++ s) = split_from (cur ++ w) s.
Proof.
  intros Hw. revert cur.
  induction Hw as [|x w Hx _ IH]; intros cur; simpl.
  - by rewrite app_nil_r.
  - rewrite Hx, IH. by rewrite <- app_assoc.
Qed.

Lemma split_blank (t : str) :
  Forall (fun c => is_space c = true) t → split t = [].
Proof.
  unfold split. induction 1 as [|c t Hc _ IH]; simpl; [done|].
  by rewrite Hc.
Qed.

(** Trailing whitespace adds no word. *)
Lemma split_from_trailing (cur a t : str) :
  Forall (fun c => is_space c = true) t →
  split_from cur (a ++ t) = split_from cur a.
Proof.
  intros Ht. revert cur.
  induction a as [|x a IH]; intros cur; simpl.
  - destruct Ht as [|c t Hc Ht]; [done|].
    simpl. rewrite Hc. apply split_blank in Ht. unfold split in Ht.
    rewrite Ht. by destruct (truthy cur).
  - destruct (is_space x); [|apply IH].
    destruct (truthy cur); by rewrite IH.
Qed.

Lemma split_lstrip (s : str) : split (lstrip s) = split s.
Proof.
  unfold split. induction s as [|c s IH]; simpl; [done|].
  destruct (is_space c) eqn:E; [done|]. simpl. by rewrite E.
Qed.

(** What [rstrip] removes is whitespace. *)
Lemma rstrip_trailing (s : str) :
  ∃ t, s = rstrip s ++ t ∧ Forall (fun c => is_space c = true) t.
Proof.
  induction s as [|c s (t & Hs & Ht)]; simpl.
  - by exists [].
  - destruct (rstrip s) as [|r rs] eqn:E.
    + destruct (is_space c) eqn:Ec.
      * exists (c :: t). simpl in Hs. split; [by rewrite Hs at 1|by constructor].
      * exists t. simpl in *. by rewrite Hs at 1.
    + exists t. split; [|done]. simpl. by rewrite Hs at 1.
Qed.

Lemma split_rstrip (s : str) : split (rstrip s) = split s.
Proof.
  destruct (rstrip_trailing s) as (t & Hs & Ht).
  rewrite Hs at 2. unfold split. by rewrite split_from_trailing.
Qed.

(** Stripping does not change the words. *)
Lemma split_strip (s : str) : split (strip s) = split s.
Proof. unfold strip. by rewrite split_rstrip, split_lstrip. Qed.

(** Every run handed out by [split_from] is a word. *)
Lemma split_from_words (cur s : str) :
  Forall (fun c => is_space c = false) cur →
  Forall is_word (split_from cur s).
Proof.
  revert cur. induction s as [|c s IH]; intros cur Hcur; simpl.
  - destruct (truthy cur) eqn:E; [|done].
    repeat constructor; [by apply truthy_true|done].
  - destruct (is_space c) eqn:Ec.
    + destruct (truthy cur) eqn:E; [|by apply IH].
      constructor; [split; [by apply truthy_true|done]|by apply IH].
    + apply IH. apply Forall_app; split; [done|by repeat constructor].
Qed.

Lemma split_words (s : str) : Forall is_word (split s).
Proof. by apply split_from_words. Qed.

(** A word splits into itself. *)
Lemma split_word (w : str) : is_word w → split w = [w].
Proof.
  intros [Hne Hw]. unfold split.
  rewrite <- (app_nil_r w) at 1. rewrite split_from_run by done.
  simpl. by apply truthy_true in Hne as ->.
Qed.

(** Splitting two pieces put together with a space between them. *)
Lemma split_spaced (a b : str) :
  split (a ++ py " " ++ b) = split a ++ split b.
Proof. unfold split. by apply split_from_gap. Qed.

(** Splitting a space-joined list of pieces splits each piece. *)
Lemma split_join (parts : list str) :
  split (join (py " ") parts) = concat (split <$> parts).
Proof.
  induction parts as [|p [|q rest] IH].
  - done.
  - simpl. by rewrite app_nil_r.
  - change (join (py " ") (p :: q :: rest))
      with (p ++ py " " ++ join (py " ") (q :: rest)).
    by rewrite split_spaced, IH.
Qed.

End PyStrFacts.

(** ** Greedy wrap *)

Module WrapFacts.
Import MakeStory PyStrFacts.

Section Wrap.
Variable textlength : Font -> str -> Q.
Variable font : Font.
Variable max_width : Z.

(** The line measures at most [max_width]. *)
Definition fits (l : str) : Prop := (textlength font l <= inject_Z max_width)%Q.

Lemma fits_test (l : str) :
  Qle_bool (textlength font l) (inject_Z max_width) = true ↔ fits l.
Proof. apply Qle_bool_iff. Qed.

Lemma overflow_test (l : str) :
  Qle_bool (textlength font l) (inject_Z max_width) = false ↔
  (inject_Z max_width < textlength font l)%Q.
Proof.
  rewrite <- not_true_iff_false, fits_test. unfold fits. split.
  - apply Qnot_le_lt.
  - apply Qlt_not_le.
Qed.

(** The lines closed by the loop and the line it ends with. *)
Definition closed (st : list str * str) : list str :=
  if truthy st.2 then st.1 ++ [st.2] else st.1.

Lemma wrap_text_closed (text : str) :
  wrap_text textlength text font max_width
  = closed (wrap_loop textlength font max_width (split text) [] []).
Proof. unfold wrap_text, closed. by destruct (wrap_loop _ _ _ _ _ _). Qed.

(** A property that holds of every word, and of every fitting line
    made by adding a word, holds of every line the loop closes. *)
Lemma wrap_loop_Forall (P : str -> Prop) (ws lines : list str) (cur : str) :
  (∀ c w, is_word w → fits (strip (c ++ py " " ++ w)) →
          P (strip (c ++ py " " ++ w))) →
  Forall is_word ws → Forall P ws → Forall P lines → (cur = [] ∨ P cur) →
  Forall P (closed (wrap_loop textlength font max_width ws lines cur)).
Proof.
  intros Hfit Hws HP. revert lines cur HP.
  induction Hws as [|w ws Hw _ IH]; intros lines cur HP Hl Hc.
  - unfold closed; cbn. destruct cur; cbn; [done|].
    destruct Hc as [?|Hc]; [done|]. apply Forall_app. by repeat constructor.
  - apply Forall_cons in HP as [HPw HP]. cbn [wrap_loop].
    destruct (Qle_bool _ _) eqn:E.
    + apply IH; [done..|]. right. by apply Hfit, fits_test.
    + apply IH; [done| |by right].
      destruct cur; cbn; [done|].
      destruct Hc as [?|Hc]; [done|]. apply Forall_app. by repeat constructor.
Qed.

(** The loop keeps the words read so far, in order. *)
Lemma wrap_loop_words (ws lines : list str) (cur : str) :
  Forall is_word ws →
  concat (split <$> closed (wrap_loop textlength font max_width ws lines cur))
  = concat (split <$> lines) ++ split cur ++ ws.
Proof.
  intros Hws. revert lines cur.
  induction Hws as [|w ws Hw _ IH]; intros lines cur.
  - unfold closed; cbn. destruct cur; cbn.
    + by rewrite !app_nil_r.
    + rewrite fmap_app, concat_app. cbn. by rewrite !app_nil_r.
  - cbn [wrap_loop]. destruct (Qle_bool _ _).
    + rewrite IH, split_strip, split_spaced, (split_word w) by done.
      by rewrite <- !app_assoc.
    + rewrite IH, (split_word w) by done.
      destruct cur; cbn; [done|].
      rewrite fmap_app, concat_app. cbn.
      by rewrite app_nil_r, <- !app_assoc.
Qed.

(** A line made by adding a word is not empty. *)
Lemma test_line_nonempty (c w : str) :
  is_word w → strip (c ++ py " " ++ w) ≠ [].
Proof.
  intros Hw E. apply (f_equal split) in E.
  rewrite split_strip, split_spaced, (split_word w) in E by done.
  by destruct (split c).
Qed.

Lemma wrap_text_words (text : str) :
  concat (split <$> wrap_text textlength text font max_width) = split text.
Proof.
  rewrite wrap_text_closed, wrap_loop_words by apply split_words.
  done.
Qed.

Lemma wrap_text_blank (text : str) :
  Forall (fun c => is_space c = true) text →
  wrap_text textlength text font max_width = [].
Proof. intros Ht. unfold wrap_text. by rewrite split_blank. Qed.

End Wrap.

(** A measure for examples: every character is ten pixels wide. *)
Definition ten_each (f : Font) (s : str) : Q := inject_Z (10 * Z.of_nat (length s)).

(** C2: a line of [wrap_text] is no wider than the maximum width,
    unless it is one word of the text that alone is wider than the
    maximum width. *)
Theorem wrap_text_width (textlength : Font -> str -> Q) (text : str)
    (font : Font) (max_width : Z) :
  Forall (fun l =>
            (textlength font l <= inject_Z max_width)%Q
            ∨ (l ∈ split text ∧ (inject_Z max_width < textlength font l)%Q))
    (wrap_text textlength text font max_width).
Proof.
  rewrite wrap_text_closed.
  apply wrap_loop_Forall; [by left|apply split_words| |done|by left].
  apply Forall_forall. intros w Hw.
  destruct (Qle_bool (textlength font w) (inject_Z max_width)) eqn:E.
  - left. by apply fits_test.
  - right. split; [done|by apply overflow_test].
Qed.

(** C10: no line of [wrap_text] is empty, and a text of whitespace
    only (the empty text included) wraps to no line at all. *)
Theorem wrap_text_no_empty_line (textlength : Font -> str -> Q) (text : str)
    (font : Font) (max_width : Z) :
  Forall (fun l => l ≠ []) (wrap_text textlength text font max_width)
  ∧ (Forall (fun c => is_space c = true) text →
     wrap_text textlength text font max_width = []).
Proof.
  split; [|apply wrap_text_blank].
  rewrite wrap_text_closed.
  apply wrap_loop_Forall with (P := fun l => l ≠ []);
    [|apply split_words| |done|by left].
  - intros c w Hw _. by apply test_line_nonempty.
  - eapply Forall_impl; [apply split_words|]. by intros w [? _].
Qed.

Lemma wrap_text_no_empty_line_witness :
  Forall (fun c => is_space c = true) (py "   ")
  ∧ wrap_text ten_each (py "   ") (mkFont dejavu_bold 64) 940 = [].
Proof.
  split; [by repeat constructor|].
  apply (wrap_text_no_empty_line ten_each (py "   ") (mkFont dejavu_bold 64) 940).
  by repeat constructor.
Defined.

(** The loop only looks at the measure through its comparisons. *)
Lemma wrap_loop_ext (tl tl' : Font -> str -> Q) (font : Font) (max_width : Z)
    (ws lines : list str) (cur : str) :
  (∀ s, (tl' font s == tl font s)%Q) →
  wrap_loop tl' font max_width ws lines cur = wrap_loop tl font max_width ws lines cur.
Proof.
  intros Heq. revert lines cur.
  induction ws as [|w ws IH]; intros lines cur; [done|].
  cbn [wrap_loop]. rewrite (Qleb_comp _ _ (Heq _) _ _ (Qeq_refl _)).
  destruct (Qle_bool _ _); apply IH.
Qed.

(** C3: the result of [wrap_text] is determined by the text, the
    maximum width and the widths the font gives; the lines joined with
    spaces split into the words of the text, in order, and the first
    three lines joined with spaces split into a prefix of them. *)
Theorem wrap_text_roundtrip (textlength : Font -> str -> Q) (text : str)
    (font : Font) (max_width : Z) :
  (∀ textlength' : Font -> str -> Q,
      (∀ s, (textlength' font s == textlength font s)%Q) →
      wrap_text textlength' text font max_width
      = wrap_text textlength text font max_width)
  ∧ split (join (py " ") (wrap_text textlength text font max_width)) = split text
  ∧ split (join (py " ") (take 3 (wrap_text textlength text font max_width)))
      `prefix_of` split text.
Proof.
  split; [|split].
  - intros tl' Heq. unfold wrap_text. by rewrite (wrap_loop_ext _ _ _ _ _ _ _ Heq).
  - by rewrite split_join, wrap_text_words.
  - rewrite split_join. rewrite <- (wrap_text_words textlength font max_width text).
    rewrite <- (take_drop 3 (wrap_text textlength text font max_width)) at 2.
    rewrite fmap_app, concat_app. by eexists.
Qed.

(** The same measure as [ten_each], written in twentieths. *)
Definition ten_each' (f : Font) (s : str) : Q :=
  Qmake (200 * Z.of_nat (length s)) 20.

Lemma wrap_text_roundtrip_witness :
  (∀ s, (ten_each' (mkFont dejavu 42) s == ten_each (mkFont dejavu 42) s)%Q)
  ∧ wrap_text ten_each' (py "a bb  ccc dddd") (mkFont dejavu 42) 40
    = wrap_text ten_each (py "a bb  ccc dddd") (mkFont dejavu 42) 40.
Proof.
  assert (Hsame : ∀ s, (ten_each' (mkFont dejavu 42) s == ten_each (mkFont dejavu 42) s)%Q).
  { intros s. unfold ten_each', ten_each, Qeq, inject_Z. cbn [Qnum Qden]. lia. }
  split; [exact Hsame|].
  apply (wrap_text_roundtrip ten_each (py "a bb  ccc dddd") (mkFont dejavu 42) 40).
  exact Hsame.
Defined.

Example wrap_text_greedy :
  wrap_text ten_each (py " one two  three four") (mkFont dejavu_bold 64) 70
  = [py "one two"; py "three"; py "four"].
Proof. vm_compute. reflexivity. Qed.

Example wrap_text_wide_word :
  wrap_text ten_each (py "a extraordinary b") (mkFont dejavu_bold 64) 50
  = [py "a"; py "extraordinary"; py "b"].
Proof. vm_compute. reflexivity. Qed.

End WrapFacts.

(** ** Text layout *)

Module RenderFacts.
Import MakeStory PyStrFacts WrapFacts.

Lemma texts_app (a b : list Op) : texts (a ++ b) = texts a ++ texts b.
Proof. apply omap_app. Qed.

(** Drawing a block of lines adds exactly these lines, in order. *)
Lemma draw_lines_texts (lines : list str) (x y : Z) (font : Font) (fill : rgba)
    (step : Z) (drawn : list Op) :
  texts (draw_lines lines x y font fill step drawn).1 = texts drawn ++ lines.
Proof.
  revert y drawn. induction lines as [|ln lines IH]; intros y drawn; cbn [draw_lines].
  - by rewrite app_nil_r.
  - rewrite IH, texts_app. cbn. by rewrite <- app_assoc.
Qed.

(** The cursor moves down one step per line drawn. *)
Lemma draw_lines_cursor (lines : list str) (x y : Z) (font : Font) (fill : rgba)
    (step : Z) (drawn : list Op) :
  (draw_lines lines x y font fill step drawn).2 = y + step * Z.of_nat (length lines).
Proof.
  revert y drawn. induction lines as [|ln lines IH]; intros y drawn; cbn [draw_lines].
  - cbn. lia.
  - rewrite IH. cbn [length]. lia.
Qed.

Section Render.
Variable textlength : Font -> str -> Q.
Variable truetype : str -> Z -> option Font.
Variable load_default : Font.

Let font := load_font truetype load_default.
Let wrap (field : option str) (f : Font) : list str :=
  wrap_text textlength (strip (get field [])) f 940.

(** C4: whenever the background can be built, [render] completes,
    and the strings it draws are, in order, the first three lines
    (at most) of the wrapped title, of the wrapped subtitle and of
    the wrapped impact, each wrapped on its own, and then the footer:
    lines after the third are not drawn and nothing is put in their
    place. *)
Theorem render_truncates_blocks (shot bg : Image) (item : Item) :
  fit_cover shot W H = Some bg →
  ∃ cv footer,
    render textlength truetype load_default shot item = Some cv
    ∧ texts (ops cv)
      = take 3 (wrap (title item) (font 64 true))
        ++ take 3 (wrap (subtitle item) (font 42 false))
        ++ take 3 (wrap (impact item) (font 48 true))
        ++ [footer]
    ∧ (length (take 3 (wrap (title item) (font 64 true))) ≤ 3
       ∧ length (take 3 (wrap (subtitle item) (font 42 false))) ≤ 3
       ∧ length (take 3 (wrap (impact item) (font 48 true))) ≤ 3)%nat.
Proof.
  intros Hbg. unfold render. rewrite Hbg. cbn [mbind option_bind].
  change (W - 2 * 70) with 940.
  destruct (draw_lines _ _ _ _ _ _ _) as [cv1 y1] eqn:E1.
  apply (f_equal fst) in E1. cbn [fst] in E1.
  apply (f_equal texts) in E1. rewrite draw_lines_texts in E1.
  cbn [texts omap app] in E1.
  assert (Hsub : ∀ y, texts (if truthy (strip (get (subtitle item) []))
                       then draw_lines
                              (take 3 (wrap (subtitle item) (font 42 false)))
                              70 y (font 42 false) (230, 230, 230, 255)
                              (size (font 42 false) + 8) cv1
                       else (cv1, y)).1
                 = texts cv1 ++ take 3 (wrap (subtitle item) (font 42 false))).
  { intros y. destruct (truthy _) eqn:E.
    - apply draw_lines_texts.
    - apply truthy_false in E. unfold wrap. rewrite E.
      rewrite wrap_text_blank by done. cbn. by rewrite app_nil_r. }
  specialize (Hsub (y1 + 20)). unfold wrap, font in Hsub.
  destruct (if truthy (strip (get (subtitle item) [])) then _ else _)
    as [cv2 y2] eqn:E2.
  cbn [fst] in Hsub.
  eexists _, _. split; [reflexivity|]. split.
  2: { rewrite !length_take. lia. }
  cbn [ops]. rewrite texts_app. cbn [texts omap].
  rewrite !app_assoc. f_equal. rewrite <- !app_assoc.
  destruct (truthy (strip (get (impact item) []))) eqn:E.
  - rewrite draw_lines_texts, texts_app, Hsub, <- E1. cbn [texts omap].
    by rewrite app_nil_r, <- app_assoc.
  - apply truthy_false in E. unfold wrap at 3. rewrite E.
    rewrite wrap_text_blank by done. cbn [take].
    by rewrite Hsub, <- E1, app_nil_r.
Qed.

End Render.

Lemma fit_cover_screenshot : is_Some (fit_cover (picture 1080 1920) W H).
Proof. vm_compute. by eexists. Qed.

Lemma render_truncates_blocks_witness :
  ∃ bg, fit_cover (picture 1080 1920) W H = Some bg
    ∧ ∃ cv footer,
        render ten_each (fun p sz => Some (mkFont p sz)) (mkFont [] 10)
          (picture 1080 1920)
          (mkItem (Some (py "AI chips")) (Some (py "https://x.test/a"))
                  (Some (py "sub")) None)
        = Some cv
        ∧ texts (ops cv)
          = take 3 (wrap_text ten_each (strip (py "AI chips")) (mkFont dejavu_bold 64) 940)
            ++ take 3 (wrap_text ten_each (strip (py "sub")) (mkFont dejavu 42) 940)
            ++ take 3 (wrap_text ten_each (strip []) (mkFont dejavu_bold 48) 940)
            ++ [footer]
        ∧ (length (take 3 (wrap_text ten_each (strip (py "AI chips")) (mkFont dejavu_bold 64) 940)) ≤ 3
           ∧ length (take 3 (wrap_text ten_each (strip (py "sub")) (mkFont dejavu 42) 940)) ≤ 3
           ∧ length (take 3 (wrap_text ten_each (strip []) (mkFont dejavu_bold 48) 940)) ≤ 3)%nat.
Proof.
  destruct (fit_cover (picture 1080 1920) W H) as [bg|] eqn:E.
  - exists bg. split; [reflexivity|].
    exact (render_truncates_blocks ten_each (fun p sz => Some (mkFont p sz))
             (mkFont [] 10) (picture 1080 1920) bg
             (mkItem (Some (py "AI chips")) (Some (py "https://x.test/a"))
                     (Some (py "sub")) None) E).
  - exfalso. vm_compute in E. discriminate E.
Defined.

Example render_drops_fourth_line :
  ∃ cv, render ten_each (fun p sz => Some (mkFont p sz)) (mkFont [] 10)
          (picture 1080 1920)
          (mkItem (Some (py "aaaa bbbb cccc dddd eeee ffff gggg hhhh iiii jjjj kkkk llll mmmm nnnn oooo pppp qqqq rrrr ssss tttt uuuu vvvv wwww xxxx yyyy zzzz aaaa bbbb cccc dddd eeee ffff gggg hhhh iiii jjjj kkkk llll mmmm nnnn oooo pppp qqqq rrrr ssss tttt uuuu vvvv wwww xxxx yyyy zzzz aaaa bbbb cccc dddd eeee ffff gggg hhhh iiii jjjj kkkk llll mmmm nnnn oooo pppp qqqq rrrr ssss tttt uuuu vvvv wwww xxxx yyyy zzzz"))
                  None None None)
        = Some cv
        ∧ length (texts (ops cv)) = 4%nat
        ∧ last (texts (ops cv)) = Some [].
Proof. vm_compute. by eexists. Qed.

(** The result of [fit_cover] has the size asked for. *)
Lemma fit_cover_size (img out : Image) (w h : Z) :
  fit_cover img w h = Some out → width out = w ∧ height out = h.
Proof.
  unfold fit_cover, true_div, resize, crop. intros Hout.
  repeat (case_match; simplify_option_eq); simpl; lia.
Qed.

(** A screenshot of the capture viewport is returned whole, without
    fill. *)
Lemma fit_cover_viewport_borderless :
  ∃ out, fit_cover (picture 1080 1920) W H = Some out ∧ borderless out.
Proof.
  assert (E : fit_cover (picture 1080 1920) W H
              = crop (picture 1080 1920) 0 0 (0 + 1080) (0 + 1920))
    by (vm_compute; reflexivity).
  rewrite E. unfold crop.
  change ((0 <=? 0 + 1080) && (0 <=? 0 + 1920)) with true. cbv iota.
  eexists. split; [reflexivity|].
  intros x y Hx Hy. cbn [width height backed picture] in *.
  unfold inside. rewrite !Z.add_0_r.
  repeat (apply andb_true_intro; split);
    first [apply Z.leb_le; lia | apply Z.ltb_lt; lia].
Qed.

(** C1: a 410 by 410 picture fitted to 1080 by 1920 comes back 1080 by
    1920, but the scaled height is truncated to 1919, the crop box
    starts one row above the scaled picture, and the top row of the
    result is fill: the result has a border. *)
Theorem fit_cover_border_410 :
  ∃ out, fit_cover (picture 410 410) 1080 1920 = Some out
    ∧ width out = 1080 ∧ height out = 1920
    ∧ (∀ x, backed out x 0 = false)
    ∧ ¬ borderless out.
Proof.
  assert (E : fit_cover (picture 410 410) 1080 1920
              = crop (picture 1919 1919) 419 (-1) (419 + 1080) (-1 + 1920))
    by (vm_compute; reflexivity).
  rewrite E. unfold crop.
  change (419 + 1080) with 1499. change (-1 + 1920) with 1919.
  change (1499 - 419) with 1080. change (1919 - -1) with 1920.
  change ((419 <=? 1499) && (-1 <=? 1919)) with true. cbv iota.
  eexists. split; [reflexivity|]. cbn [width height backed picture].
  assert (Htop : ∀ x, inside 1080 1920 x 0 && inside 1919 1919 (x + 419) (0 + -1)
                        && inside 1919 1919 (x + 419) (0 + -1) = false).
  { intros x. unfold inside. cbn [Z.add Z.leb Z.compare].
    by rewrite !andb_false_r. }
  split; [done|]. split; [done|]. split; [exact Htop|].
  intros Hb. specialize (Hb 0 0). cbn [width height backed] in Hb.
  rewrite Htop in Hb. assert (false = true) by (apply Hb; lia). discriminate.
Qed.

(** C8: for a URL that contains a second scheme after the leading one,
    the footer drawn by [render] has lost the second scheme as well: it
    is not the URL with only its scheme prefix stripped. *)
Theorem render_footer_inner_scheme (textlength : Font -> str -> Q)
    (truetype : str -> Z -> option Font) (load_default : Font) :
  ∃ cv, render textlength truetype load_default (picture 1080 1920)
          (mkItem None (Some (py "https://web.archive.org/save/http://example.com"))
                  None None)
        = Some cv
    ∧ last (texts (ops cv)) = Some (py "web.archive.org/save/example.com")
    ∧ py "web.archive.org/save/example.com"
      ≠ take 60 (py "web.archive.org/save/http://example.com").
Proof.
  eexists. split; [vm_compute; reflexivity|]. split; [vm_compute; reflexivity|].
  vm_compute. discriminate.
Qed.

End RenderFacts.

(** ** Feed picker: de-duplication *)

Module DedupeFacts.
Import PickAiNews.

(** The candidates kept from [cands] when the URLs in [seen] have
    already been met. *)
Fixpoint firsts (seen : gset str) (cands : list Candidate) : list Candidate :=
  match cands with
  | [] => []
  | c :: rest =>
      if decide (url c ∈ seen) then firsts seen rest
      else c :: firsts ({[url c]} ∪ seen) rest
  end.

Lemma filter_none {A} (P : A -> Prop) `{!∀ x, Decision (P x)} (l : list A) :
  Forall (fun x => ¬ P x) l → filter P l = [].
Proof.
  induction 1 as [|x l Hx _ IH]; [done|]. by rewrite filter_cons_False.
Qed.

Lemma dedupe_loop_firsts (cands : list Candidate) (seen : gset str)
    (deduped : list Candidate) :
  dedupe_loop cands seen deduped = deduped ++ firsts seen cands.
Proof.
  revert seen deduped. induction cands as [|c rest IH]; intros seen deduped; simpl.
  - by rewrite app_nil_r.
  - case_decide; rewrite IH; [done|]. by rewrite <- app_assoc.
Qed.

Lemma dedupe_firsts (cands : list Candidate) : dedupe cands = firsts ∅ cands.
Proof. unfold dedupe. by rewrite dedupe_loop_firsts. Qed.

(** A kept candidate has a URL not met before, and is the first of
    [cands] with its URL. *)
Lemma firsts_elem (seen : gset str) (cands : list Candidate) (c : Candidate) :
  c ∈ firsts seen cands →
  (url c ∉ seen) ∧ ∃ l1 l2, cands = l1 ++ c :: l2 ∧ (url c ∉ url <$> l1).
Proof.
  revert seen. induction cands as [|x rest IH]; intros seen; simpl.
  - by intros ?%elem_of_nil.
  - case_decide as Hx.
    + intros Hin. apply IH in Hin as (Hc & l1 & l2 & Heq & Hl1). split; [done|].
      exists (x :: l1), l2. split; [by rewrite Heq|].
      rewrite fmap_cons, not_elem_of_cons. split; [congruence|done].
    + intros [->|Hin]%elem_of_cons.
      * split; [done|]. exists [], rest. split; [done|]. apply not_elem_of_nil.
      * apply IH in Hin as (Hc & l1 & l2 & Heq & Hl1).
        apply not_elem_of_union in Hc as [Hcx Hc].
        rewrite not_elem_of_singleton in Hcx. split; [done|].
        exists (x :: l1), l2. split; [by rewrite Heq|].
        rewrite fmap_cons, not_elem_of_cons. by split.
Qed.

Lemma firsts_NoDup (seen : gset str) (cands : list Candidate) :
  NoDup (url <$> firsts seen cands).
Proof.
  revert seen. induction cands as [|x rest IH]; intros seen; simpl.
  - constructor.
  - case_decide; [apply IH|]. rewrite fmap_cons. constructor; [|apply IH].
    intros (c & Hu & [Hc _]%firsts_elem)%list_elem_of_fmap.
    apply Hc, elem_of_union_l, elem_of_singleton. by rewrite Hu.
Qed.

(** Of the kept candidates, the one with the URL of a first occurrence
    is that occurrence. *)
Lemma firsts_first (seen : gset str) (l1 l2 : list Candidate) (c : Candidate) :
  url c ∉ seen → url c ∉ url <$> l1 →
  filter (fun c' => url c' = url c) (firsts seen (l1 ++ c :: l2)) = [c].
Proof.
  revert seen. induction l1 as [|x l1 IH]; intros seen Hseen Hl1; simpl.
  - rewrite decide_False by done. rewrite filter_cons_True by done. f_equal.
    apply filter_none, Forall_forall.
    intros c' [Hc' _]%firsts_elem Hu.
    apply Hc', elem_of_union_l, elem_of_singleton. by rewrite Hu.
  - rewrite fmap_cons, not_elem_of_cons in Hl1. destruct Hl1 as [Hx Hl1].
    destruct (decide (url x ∈ seen)); [by apply IH|].
    rewrite filter_cons_False by congruence. apply IH; [|done].
    rewrite not_elem_of_union, not_elem_of_singleton. by split.
Qed.

Section Scan.
Variable KEYWORDS_search : str -> bool.
Variable isoformat : datetime -> str.
Variable parse : str -> Parsed.

(** The name a feed's candidates carry. *)
Definition source_of (u : str) : str :=
  or_else (feed_title (parse u)) (or_else (feed_link (parse u)) u).

(** The candidates one feed contributes, in entry order; [None] when
    one of its entries makes the loop raise. *)
Definition feed_candidates (cutoff : datetime) (u : str) : option (list Candidate) :=
  omap id <$> mapM (candidate_of KEYWORDS_search isoformat cutoff (source_of u))
                (entries (parse u)).

Lemma scan_entries_mapM (cutoff : datetime) (src : str) (es : list Entry)
    (cands : list Candidate) :
  scan_entries KEYWORDS_search isoformat cutoff src es cands
  = (fun rs => cands ++ omap id rs)
      <$> mapM (candidate_of KEYWORDS_search isoformat cutoff src) es.
Proof.
  revert cands. induction es as [|e es IH]; intros cands; simpl.
  - by rewrite app_nil_r.
  - destruct (candidate_of _ _ _ _ e) as [r|]; simpl; [|done].
    rewrite IH. destruct (mapM _ es) as [rs|]; simpl; [|done].
    destruct r; simpl; [|done]. by rewrite <- app_assoc.
Qed.

(** Candidates are discovered feed by feed in file order, and within
    a feed in entry order. *)
Lemma scan_feeds_concat (cutoff : datetime) (feeds : list str)
    (cands : list Candidate) :
  scan_feeds KEYWORDS_search isoformat parse cutoff feeds cands
  = (fun ls => cands ++ concat ls) <$> mapM (feed_candidates cutoff) feeds.
Proof.
  revert cands. induction feeds as [|u feeds IH]; intros cands; simpl.
  - by rewrite app_nil_r.
  - rewrite scan_entries_mapM. unfold feed_candidates, source_of.
    destruct (mapM _ (entries (parse u))) as [rs|]; simpl; [|done].
    rewrite IH. destruct (mapM _ feeds) as [ls|]; simpl; [|done].
    by rewrite <- app_assoc.
Qed.

End Scan.

End DedupeFacts.

(** ** Feed picker: ordering *)

Module SortFacts.
Import PickAiNews.

(** [a >= b] on strings. *)
Definition str_ge (a b : str) : Prop := str_ltb a b = false.

Lemma str_ltb_irrefl (a : str) : str_ltb a a = false.
Proof.
  induction a as [|x a IH]; simpl; [done|].
  by rewrite N.ltb_irrefl, N.eqb_refl, IH.
Qed.

Lemma str_ge_nil (a : str) : str_ge a [].
Proof. by destruct a. Qed.

Lemma str_ge_nil_inv (a : str) : str_ge [] a → a = [].
Proof. by destruct a. Qed.

Lemma str_ltb_cons (x y : N) (a b : str) :
  str_ltb (x :: a) (y :: b) = true ↔ (x < y)%N ∨ (x = y ∧ str_ltb a b = true).
Proof.
  simpl. rewrite orb_true_iff, andb_true_iff, N.ltb_lt, N.eqb_eq. tauto.
Qed.

Lemma str_ge_cons (x y : N) (a b : str) :
  str_ge (x :: a) (y :: b) ↔ (y < x)%N ∨ (x = y ∧ str_ge a b).
Proof.
  unfold str_ge. rewrite <- not_true_iff_false, str_ltb_cons.
  rewrite <- (not_true_iff_false (str_ltb a b)). split.
  - intros Hn. destruct (N.lt_trichotomy x y) as [?|[->|?]]; [tauto| |tauto].
    right. split; [done|]. tauto.
  - intros [?|[-> ?]] [?|[? ?]]; try lia; tauto.
Qed.

Global Instance str_ge_trans : Transitive str_ge.
Proof.
  intros a. induction a as [|x a IH]; intros b c Hab Hbc.
  - apply str_ge_nil_inv in Hab as ->. by apply str_ge_nil_inv in Hbc as ->.
  - destruct c as [|z c]; [apply str_ge_nil|].
    destruct b as [|y b]; [by apply str_ge_nil_inv in Hbc|].
    apply str_ge_cons in Hab, Hbc. apply str_ge_cons.
    destruct Hab as [?|[-> ?]], Hbc as [?|[-> ?]]; try (left; lia).
    right. split; [done|]. by eapply IH.
Qed.

(** A string that is not below another is above or equal to it. *)
Lemma str_ltb_ge (a b : str) : str_ltb a b = true → str_ge b a.
Proof.
  revert b. induction a as [|x a IH]; intros [|y b]; try done.
  rewrite str_ltb_cons, str_ge_cons. intros [?|[-> ?]]; [by left|].
  right. split; [done|]. by apply IH.
Qed.

End SortFacts.

Module SortProofs.
Import PickAiNews SortFacts.

Section Stable.
Context {A : Type} (key : A -> str).

(** Newest first: the key of the earlier element is not below the
    key of the later one. *)
Definition newest_first (a b : A) : Prop := str_ge (key a) (key b).

Lemma insert_desc_perm (x : A) (l : list A) : insert_desc key x l ≡ₚ x :: l.
Proof.
  induction l as [|y l IH]; simpl; [done|].
  destruct (str_ltb _ _); [|done].
  rewrite IH. apply Permutation_swap.
Qed.

Lemma insert_desc_sorted (x : A) (l : list A) :
  StronglySorted newest_first l → StronglySorted newest_first (insert_desc key x l).
Proof.
  induction 1 as [|y l Hl IH Hy]; simpl; [by repeat constructor|].
  destruct (str_ltb (key x) (key y)) eqn:E.
  - constructor; [done|]. rewrite insert_desc_perm.
    constructor; [by apply str_ltb_ge|done].
  - constructor; [by constructor|]. constructor; [done|].
    eapply Forall_impl; [exact Hy|]. intros z Hz.
    unfold newest_first in *. by etrans.
Qed.

(** Insertion never passes an element with the same key. *)
Lemma insert_desc_filter (k : str) (x : A) (l : list A) :
  filter (fun a => key a = k) (insert_desc key x l)
  = filter (fun a => key a = k) (x :: l).
Proof.
  induction l as [|y l IH]; simpl; [done|].
  destruct (str_ltb (key x) (key y)) eqn:E; [|done].
  rewrite (filter_cons _ y), IH, !(filter_cons _ x), (filter_cons _ y).
  destruct (decide (key x = k)) as [Hx|]; [|done].
  destruct (decide (key y = k)) as [Hy|]; [|done].
  rewrite Hx, Hy, str_ltb_irrefl in E. discriminate.
Qed.

Lemma sort_reverse_perm (l : list A) : sort_reverse key l ≡ₚ l.
Proof.
  induction l as [|x l IH]; simpl; [done|].
  by rewrite insert_desc_perm, IH.
Qed.

Lemma sort_reverse_sorted (l : list A) :
  StronglySorted newest_first (sort_reverse key l).
Proof.
  induction l as [|x l IH]; simpl; [constructor|].
  by apply insert_desc_sorted.
Qed.

Lemma sort_reverse_stable (k : str) (l : list A) :
  filter (fun a => key a = k) (sort_reverse key l)
  = filter (fun a => key a = k) l.
Proof.
  induction l as [|x l IH]; simpl; [done|].
  by rewrite insert_desc_filter, !filter_cons, IH.
Qed.

(** In a sorted list the earlier of two elements is the newer. *)
Lemma sorted_lookup (l : list A) (i j : nat) (a b : A) :
  StronglySorted newest_first l →
  l !! i = Some a → l !! j = Some b → (i < j)%nat → newest_first a b.
Proof.
  intros Hl. revert i j. induction Hl as [|y l Hl IH Hy]; intros i j Hi Hj Hij.
  - by rewrite lookup_nil in Hi.
  - destruct j as [|j]; [lia|]. destruct i as [|i]; simpl in *.
    + injection Hi as ->. rewrite Forall_forall in Hy.
      by eapply Hy, list_elem_of_lookup_2.
    + eapply IH; [done..|lia].
Qed.

End Stable.

(** C6: the sorted list is a rearrangement of the de-duplicated one in
    which no candidate's key is below the key of a later candidate, the
    key being the published string or the empty string when it is
    missing; a candidate without a published time therefore comes
    after every candidate with one, and candidates with the same key
    keep the order they had. *)
Theorem sort_newest_first_stable (deduped : list Candidate) :
  let out := sort_reverse sort_key deduped in
  out ≡ₚ deduped
  ∧ StronglySorted (fun a b => str_ltb (sort_key a) (sort_key b) = false) out
  ∧ (∀ i j a b ts,
        out !! i = Some a → out !! j = Some b →
        published a = None → published b = Some ts → ts ≠ [] →
        sort_key a = [] ∧ (j < i)%nat)
  ∧ (∀ k, filter (fun c => sort_key c = k) out
          = filter (fun c => sort_key c = k) deduped).
Proof.
  intros out. split; [apply sort_reverse_perm|].
  split; [apply sort_reverse_sorted|].
  split; [|intros k; apply sort_reverse_stable].
  intros i j a b ts Hi Hj Ha Hb Hts.
  assert (Hka : sort_key a = []) by (unfold sort_key; by rewrite Ha).
  assert (Hkb : sort_key b = ts).
  { unfold sort_key. rewrite Hb. simpl. by destruct ts. }
  split; [done|].
  destruct (decide (j < i)%nat) as [|Hge]; [done|]. exfalso.
  destruct (decide (i = j)) as [->|Hne].
  - rewrite Hi in Hj. injection Hj as ->. congruence.
  - assert (Hlt : (i < j)%nat) by lia.
    pose proof (sorted_lookup sort_key out i j a b
                  (sort_reverse_sorted sort_key deduped) Hi Hj Hlt) as Hab.
    unfold newest_first in Hab. rewrite Hka in Hab.
    apply str_ge_nil_inv in Hab. congruence.
Qed.

Definition dated (u ts : string) : Candidate :=
  mkCandidate (py "AI") (py u) (py "Feed") (Some (py ts)).
Definition undated (u : string) : Candidate :=
  mkCandidate (py "AI") (py u) (py "Feed") None.

Definition shelf : list Candidate :=
  [dated "u1" "2026-11-02T08:00:00Z"; undated "u2";
   dated "u3" "2026-11-03T09:30:00Z"; dated "u4" "2026-11-02T08:00:00Z"].

Example sort_reverse_shelf :
  sort_reverse sort_key shelf
  = [dated "u3" "2026-11-03T09:30:00Z"; dated "u1" "2026-11-02T08:00:00Z";
     dated "u4" "2026-11-02T08:00:00Z"; undated "u2"].
Proof. vm_compute. reflexivity. Qed.

Lemma sort_newest_first_stable_witness :
  sort_reverse sort_key shelf !! 3%nat = Some (undated "u2")
  ∧ sort_reverse sort_key shelf !! 1%nat = Some (dated "u1" "2026-11-02T08:00:00Z")
  ∧ published (undated "u2") = None
  ∧ published (dated "u1" "2026-11-02T08:00:00Z") = Some (py "2026-11-02T08:00:00Z")
  ∧ py "2026-11-02T08:00:00Z" ≠ []
  ∧ sort_key (undated "u2") = [] ∧ (1 < 3)%nat.
Proof.
  assert (H3 : sort_reverse sort_key shelf !! 3%nat = Some (undated "u2"))
    by (vm_compute; reflexivity).
  assert (H1 : sort_reverse sort_key shelf !! 1%nat
               = Some (dated "u1" "2026-11-02T08:00:00Z"))
    by (vm_compute; reflexivity).
  assert (Hts : py "2026-11-02T08:00:00Z" ≠ []) by (vm_compute; discriminate).
  split; [exact H3|]. split; [exact H1|]. split; [reflexivity|].
  split; [reflexivity|]. split; [exact Hts|].
  destruct (sort_newest_first_stable shelf) as (_ & _ & Hlast & _).
  exact (Hlast 3%nat 1%nat _ _ _ H3 H1 eq_refl eq_refl Hts).
Defined.

End SortProofs.

(** ** Feed picker: what survives *)

Module PickerFacts.
Import PickAiNews DedupeFacts SortProofs.

(** C5: candidates are discovered feed by feed in file order and entry
    by entry within a feed (the loop giving no list at all when an
    entry makes it raise); after de-duplication no URL occurs twice,
    nor does one in the list that is printed; every survivor is the
    first discovered candidate with its URL, and for the first
    discovered candidate with some URL the survivors with that URL are
    that candidate alone, whichever feeds the later ones came from. *)
Theorem dedupe_first_seen_wins (KEYWORDS_search : str -> bool)
    (isoformat : datetime -> str) (parse : str -> Parsed) (cutoff : datetime)
    (cands : list Candidate) :
  (∀ feeds, scan_feeds KEYWORDS_search isoformat parse cutoff feeds []
            = (fun found => concat found)
                <$> mapM (feed_candidates KEYWORDS_search isoformat parse cutoff) feeds)
  ∧ NoDup (url <$> dedupe cands)
  ∧ (∀ limit, NoDup (url <$> slice_to (sort_reverse sort_key (dedupe cands)) limit))
  ∧ (∀ c, c ∈ dedupe cands →
          ∃ l1 l2, cands = l1 ++ c :: l2 ∧ (url c ∉ url <$> l1))
  ∧ (∀ l1 c l2, cands = l1 ++ c :: l2 → url c ∉ url <$> l1 →
                filter (fun c' => url c' = url c) (dedupe cands) = [c]).
Proof.
  rewrite dedupe_firsts. repeat split.
  - intros feeds. rewrite scan_feeds_concat. by destruct (mapM _ feeds).
  - apply firsts_NoDup.
  - intros limit. unfold slice_to.
    assert (Hall : NoDup (url <$> sort_reverse sort_key (firsts ∅ cands))).
    { rewrite sort_reverse_perm. apply firsts_NoDup. }
    destruct (0 <=? limit); rewrite fmap_take;
      by eapply sublist_NoDup; [|apply sublist_take].
  - intros c Hc. by apply firsts_elem in Hc as [_ ?].
  - intros l1 c l2 -> Hl1. apply firsts_first; [apply not_elem_of_empty|done].
Qed.

Definition story_a : Candidate :=
  mkCandidate (py "AI chips") (py "https://x.test/a") (py "Feed one") None.
Definition story_b : Candidate :=
  mkCandidate (py "New model") (py "https://x.test/b") (py "Feed one") None.
Definition story_a_again : Candidate :=
  mkCandidate (py "AI chips (repost)") (py "https://x.test/a") (py "Feed two") None.

Lemma dedupe_first_seen_wins_witness :
  [story_a; story_b; story_a_again] = [] ++ story_a :: [story_b; story_a_again]
  ∧ (url story_a ∉ url <$> [])
  ∧ filter (fun c' => url c' = url story_a)
      (dedupe [story_a; story_b; story_a_again]) = [story_a].
Proof.
  split; [reflexivity|]. split; [apply not_elem_of_nil|].
  destruct (dedupe_first_seen_wins (fun _ => true) (fun _ => [])
              (fun _ => mkParsed None None []) 0 [story_a; story_b; story_a_again])
    as (_ & _ & _ & _ & Hfirst).
  apply (Hfirst [] story_a [story_b; story_a_again]).
  - reflexivity.
  - apply not_elem_of_nil.
Defined.

Example dedupe_example :
  dedupe [story_a; story_b; story_a_again] = [story_a; story_b].
Proof. vm_compute. reflexivity. Qed.

End PickerFacts.

(** ** Feed picker: recency *)

Module RecencyFacts.
Import PickAiNews.

(** The text the keyword pattern is searched in. *)
Definition blob (e : Entry) : str :=
  strip (or_else (e_title e) []) ++ py " " ++ strip (or_else (e_summary e) []).

(** The entry's link, as the loop reads it. *)
Definition link (e : Entry) : str := strip (or_else (e_link e) []).

Definition HOUR : Z := 3600 * 1000000.

Lemma sub_hours_Some (now hours cutoff : Z) :
  sub_hours now hours = Some cutoff → cutoff = now - hours * HOUR.
Proof.
  unfold sub_hours, HOUR. case_match; [|done]. intros [= <-]. lia.
Qed.

Section Recency.
Variable KEYWORDS_search : str -> bool.
Variable isoformat : datetime -> str.

(** An entry that matches the keywords, has a link and a time (if
    any) that a datetime can hold is passed over exactly when that time
    is known and before the cutoff. *)
Lemma candidate_of_skipped (cutoff : datetime) (src : str) (e : Entry)
    (when : option datetime) :
  KEYWORDS_search (blob e) = true → link e ≠ [] → parse_dt e = Some when →
  candidate_of KEYWORDS_search isoformat cutoff src e = Some None
  ↔ ∃ t, when = Some t ∧ t < cutoff.
Proof.
  intros Hkw Hlink Hwhen. unfold candidate_of. fold (blob e). fold (link e).
  rewrite Hkw, Hwhen. cbn [negb mbind option_bind].
  destruct (link e) as [|c l] eqn:El; [done|]. cbn [truthy negb].
  destruct when as [t|].
  - destruct (Z.ltb_spec t cutoff).
    + split; [eauto|done].
    + split; [done|]. intros (t' & [= <-] & ?). lia.
  - split; [done|]. by intros (t' & ? & _).
Qed.

End Recency.

(** C7: when the cutoff [now - hours] exists, an entry that passes the
    keyword test and has a link, and whose time tuple, if it has one,
    is a date and time that a datetime can hold, is left out exactly
    when its time is known and strictly before the cutoff; without a
    time it is kept whatever the window; and with a window of 24 hours
    an entry dated 25 hours before now, or earlier, is left out.  For
    a time tuple that a datetime cannot hold the loop raises instead. *)
Theorem recency_filter (KEYWORDS_search : str -> bool) (isoformat : datetime -> str)
    (now hours cutoff : Z) (src : str) (e : Entry) :
  sub_hours now hours = Some cutoff →
  KEYWORDS_search (blob e) = true →
  link e ≠ [] →
  cutoff = now - hours * HOUR
  ∧ (parse_dt e = None →
     candidate_of KEYWORDS_search isoformat cutoff src e = None)
  ∧ (∀ when, parse_dt e = Some when →
       (candidate_of KEYWORDS_search isoformat cutoff src e = Some None
        ↔ ∃ t, when = Some t ∧ t < now - hours * HOUR)
       ∧ (when = None →
          ∃ c, candidate_of KEYWORDS_search isoformat cutoff src e = Some (Some c))
       ∧ (∀ t, hours = 24 → when = Some t → t <= now - 25 * HOUR →
               candidate_of KEYWORDS_search isoformat cutoff src e = Some None)).
Proof.
  intros Hcut%sub_hours_Some Hkw Hlink.
  split; [done|]. rewrite <- Hcut. split.
  { intros Hraise. unfold candidate_of. fold (blob e).
    by rewrite Hkw, Hraise. }
  intros when Hwhen.
  pose proof (candidate_of_skipped KEYWORDS_search isoformat cutoff src e when
                Hkw Hlink Hwhen) as Hskip.
  split; [done|]. split.
  - intros ->. unfold candidate_of. fold (blob e). fold (link e).
    rewrite Hkw, Hwhen. cbn [negb mbind option_bind].
    apply PyStrFacts.truthy_true in Hlink as ->. cbn [negb]. by eexists.
  - intros t -> Ht Hold. apply Hskip. exists t. split; [done|].
    unfold HOUR in *. lia.
Qed.

(** The clock of the examples: noon on 4 November 2025. *)
Definition noon : datetime := instant (mkTime 2025 11 4 12 0 0).

(** An entry dated 28 hours before [noon]. *)
Definition old_entry : Entry :=
  mkEntry (Some (py "AI chips")) (Some (py " https://x.test/a ")) None
    (Some (mkTime 2025 11 3 8 0 0)) None.

Lemma recency_filter_witness :
  sub_hours noon 24 = Some (instant (mkTime 2025 11 3 12 0 0))
  ∧ (fun _ : str => true) (blob old_entry) = true
  ∧ link old_entry ≠ []
  ∧ parse_dt old_entry = Some (Some (instant (mkTime 2025 11 3 8 0 0)))
  ∧ instant (mkTime 2025 11 3 8 0 0) <= noon - 25 * HOUR
  ∧ candidate_of (fun _ => true) (fun _ => []) (instant (mkTime 2025 11 3 12 0 0))
      (py "Feed") old_entry
    = Some None.
Proof.
  assert (Hcut : sub_hours noon 24 = Some (instant (mkTime 2025 11 3 12 0 0)))
    by (vm_compute; reflexivity).
  assert (Hlink : link old_entry ≠ []) by (vm_compute; discriminate).
  assert (Hwhen : parse_dt old_entry = Some (Some (instant (mkTime 2025 11 3 8 0 0))))
    by (vm_compute; reflexivity).
  assert (Hold : instant (mkTime 2025 11 3 8 0 0) <= noon - 25 * HOUR)
    by (vm_compute; discriminate).
  split; [exact Hcut|]. split; [reflexivity|]. split; [exact Hlink|].
  split; [exact Hwhen|]. split; [exact Hold|].
  destruct (recency_filter (fun _ => true) (fun _ => []) noon 24
              (instant (mkTime 2025 11 3 12 0 0)) (py "Feed") old_entry
              Hcut eq_refl Hlink)
    as (_ & _ & Hknown).
  destruct (Hknown _ Hwhen) as (_ & _ & Hday).
  exact (Hday _ eq_refl eq_refl Hold).
Defined.

(** An entry whose time tuple names a day of the year 0. *)
Definition ancient_entry : Entry :=
  mkEntry (Some (py "AI chips")) (Some (py "https://x.test/a")) None
    (Some (mkTime 0 6 1 0 0 0)) None.

(** For an entry dated in the year 0 the time is known and lies before
    the cutoff, yet the entry is not passed over: the loop raises. *)
Lemma recency_filter_year_zero :
  sub_hours noon 24 = Some (instant (mkTime 2025 11 3 12 0 0))
  ∧ (fun _ : str => true) (blob ancient_entry) = true
  ∧ link ancient_entry ≠ []
  ∧ ¬ (candidate_of (fun _ => true) (fun _ => []) (instant (mkTime 2025 11 3 12 0 0))
         (py "Feed") ancient_entry = Some None
       ↔ ∃ t, entry_time ancient_entry = Some t
              ∧ instant t < instant (mkTime 2025 11 3 12 0 0)).
Proof.
  split; [vm_compute; reflexivity|]. split; [reflexivity|].
  split; [vm_compute; discriminate|].
  intros [_ Hskip].
  assert (Hraise : candidate_of (fun _ => true) (fun _ => [])
                     (instant (mkTime 2025 11 3 12 0 0)) (py "Feed") ancient_entry
                   = None) by (vm_compute; reflexivity).
  rewrite Hraise in Hskip. discriminate Hskip.
  exists (mkTime 0 6 1 0 0 0). split; [reflexivity|]. vm_compute. reflexivity.
Qed.

Example instant_matches_toordinal :
  ymd2ord 2025 11 4 = 739559 ∧ ymd2ord 2024 2 29 = 738945
  ∧ ymd2ord 9999 12 31 = 3652059 ∧ ymd2ord 1 1 1 = 1
  ∧ noon = 63897854400 * 1000000.
Proof. vm_compute. by repeat split. Qed.

Example make_datetime_rejects :
  make_datetime (mkTime 10000 1 1 0 0 0) = None
  ∧ make_datetime (mkTime 2025 2 29 0 0 0) = None
  ∧ make_datetime (mkTime 2024 2 29 23 59 59) = Some (instant (mkTime 2024 2 29 23 59 59))
  ∧ make_datetime (mkTime 2025 1 1 0 0 60) = None.
Proof. vm_compute. by repeat split. Qed.

End RecencyFacts.

(** ** Orchestrator: start-up checks *)

Module OrchestratorFacts.
Import GenStories.

Lemma bind_assoc {A B C} (m : M A) (k : A -> M B) (k' : B -> M C) (w : World) :
  bind (bind m k) k' w = bind m (fun a => bind (k a) k') w.
Proof. unfold bind. by destruct (m w) as [w' [a|s]]. Qed.

(** A system call leaves the record of composer runs alone. *)
Lemma call_runs {A} (f : Sys A) (w : World) :
  composer_runs (call f w).1 = composer_runs w.
Proof. unfold call. by destruct (f (files w)). Qed.

(** The path of the screenshot expected for the item of index [i]. *)
Definition shot_path (args : Args) (i : nat) : str :=
  path_str (joinpath (Path (shots_dir args)) (shot_name i)).

Section Checks.
Variable stat_raises : gset str -> str -> bool.
Variable load_json : gset str -> str -> option (list Item).
Variable mkdir : str -> Sys unit.
Variable take_screenshot : str -> str -> str -> Z -> Sys unit.
Variable write_temp : list Item -> Sys str.
Variable run_composer : list str -> Sys Z.
Variable unlink : str -> Sys unit.
Variable summary : str -> Sys unit.
Variable executable : str.
Variable script_dir : PurePath.

(** Capturing never runs the composer. *)
Lemma capture_runs (args : Args) (its : list Item) (i : nat) (w : World) :
  composer_runs (capture take_screenshot args i its w).1 = composer_runs w.
Proof.
  revert i w. induction its as [|item rest IH]; intros i w; [done|].
  cbn [capture]. destruct (negb _); [apply IH|].
  unfold bind. pose proof (call_runs (take_screenshot
    (strip (default [] (item !! py "url")))
    (path_str (joinpath (Path (shots_dir args)) (shot_name i)))
    (browser args) (timeout args)) w) as Hc.
  destruct (call _ w) as [w' [[]|s]]; cbn [fst] in Hc |- *; [|done].
  by rewrite IH.
Qed.

(** What [main] does between loading the items and looking for the
    screenshots: it makes the two directories and runs the capture
    step. *)
Definition prepare (args : Args) (its : list Item) : M unit :=
  make_dirs mkdir args ;;
  (if skip_screenshots args then ret tt else capture take_screenshot args 1 its).

Lemma prepare_runs (args : Args) (its : list Item) (w : World) :
  composer_runs (prepare args its w).1 = composer_runs w.
Proof.
  unfold prepare, make_dirs, bind.
  pose proof (call_runs (mkdir (path_str (Path (shots_dir args)))) w) as H1.
  destruct (call _ w) as [w1 [[]|s]]; cbn [fst] in H1 |- *; [|done].
  pose proof (call_runs (mkdir (path_str (Path (out_dir args)))) w1) as H2.
  destruct (call _ w1) as [w2 [[]|s]]; cbn [fst] in H2 |- *; [|congruence].
  destruct (skip_screenshots args); cbn; [congruence|].
  rewrite capture_runs. congruence.
Qed.

(** The augmenting loop changes nothing. *)
Lemma augment_world (args : Args) (its augmented : list Item) (i : nat) (w : World) :
  (augment stat_raises args i its augmented w).1 = w.
Proof.
  revert augmented i. induction its as [|item rest IH]; intros augmented i; [done|].
  cbn [augment]. unfold bind, path_exists.
  destruct (bool_decide _); cbn [negb]; [apply IH|].
  by destruct (stat_raises _ _).
Qed.

(** The augmenting loop stops at the first screenshot that is missing. *)
Lemma augment_missing (args : Args) (its augmented : list Item) (i k : nat)
    (w : World) :
  (k < length its)%nat → shot_path args (i + k) ∉ files w →
  (∀ j, (i ≤ j ≤ i + k)%nat → stat_raises (files w) (shot_path args j) = false) →
  ∃ j, (i ≤ j ≤ i + k)%nat ∧ (shot_path args j ∉ files w)
       ∧ augment stat_raises args i its augmented w
         = (w, Err (SysExit (msg_missing_shot (shot_path args j)))).
Proof.
  revert augmented i k.
  induction its as [|item rest IH]; intros augmented i k Hk Hmiss Hstat;
    [simpl in Hk; lia|].
  cbn [augment]. unfold bind, path_exists. fold (shot_path args i).
  destruct (decide (shot_path args i ∈ files w)) as [Hin|Hout].
  - rewrite bool_decide_eq_true_2 by done. cbn [negb].
    destruct k as [|k]; [by rewrite Nat.add_0_r in Hmiss|].
    destruct (IH (augmented ++ [<[py "screenshot" := shot_path args i]> item])
                (S i) k) as (j & Hj & Hjm & Heq).
    + simpl in Hk. lia.
    + by replace (S i + k)%nat with (i + S k)%nat by lia.
    + intros j Hj. apply Hstat. lia.
    + exists j. split; [lia|]. by split.
  - rewrite bool_decide_eq_false_2 by done. rewrite Hstat by lia. cbn [negb].
    exists i. split; [lia|]. by split.
Qed.

(** It runs to its end only when every screenshot is there. *)
Lemma augment_Ok (args : Args) (its augmented out : list Item) (i : nat)
    (w w' : World) :
  augment stat_raises args i its augmented w = (w', Ok out) →
  ∀ k, (k < length its)%nat → shot_path args (i + k) ∈ files w.
Proof.
  revert augmented i.
  induction its as [|item rest IH]; intros augmented i Haug k Hk;
    [simpl in Hk; lia|].
  cbn [augment] in Haug. unfold bind, path_exists in Haug.
  fold (shot_path args i) in Haug.
  destruct (decide (shot_path args i ∈ files w)) as [Hin|Hout].
  - rewrite bool_decide_eq_true_2 in Haug by done. cbn [negb] in Haug.
    destruct k as [|k]; [by rewrite Nat.add_0_r|].
    replace (i + S k)%nat with (S i + k)%nat by lia.
    eapply IH; [exact Haug|]. simpl in Hk. lia.
  - rewrite bool_decide_eq_false_2 in Haug by done.
    by destruct (stat_raises _ _).
Qed.

(** What follows the directories and the capture step. *)
Definition finish (args : Args) (its : list Item) : M unit :=
  run augmented <- augment stat_raises args 1 its [];
  compose stat_raises write_temp run_composer unlink executable script_dir args
    augmented ;;
  call (summary (path_str (Path (out_dir args)))).

Lemma main_after_load (args : Args) (its : list Item) (w : World) :
  path_str (Path (items args)) ∈ files w →
  load_json (files w) (path_str (Path (items args))) = Some its →
  its ≠ [] →
  main stat_raises load_json mkdir take_screenshot write_temp run_composer unlink
    summary executable script_dir args w
  = match prepare args its w with
    | (w1, Ok _) => finish args its w1
    | (w1, Err s) => (w1, Err s)
    end.
Proof.
  intros Hin Hload Hne. unfold main, load_items, bind at 1 2, path_exists.
  rewrite bool_decide_eq_true_2 by done. cbn [negb]. rewrite Hload.
  destruct its as [|item rest]; [done|].
  rewrite <- bind_assoc. fold (prepare args (item :: rest)).
  unfold bind at 1. by destruct (prepare _ _ _) as [w1 [[]|s]].
Qed.

(** Whatever is wrong with the items file, [main] stops where it
    started. *)
Lemma main_without_items (args : Args) (w : World) :
  (path_str (Path (items args)) ∉ files w
   ∨ ¬ ∃ item rest,
         load_json (files w) (path_str (Path (items args))) = Some (item :: rest)) →
  (main stat_raises load_json mkdir take_screenshot write_temp run_composer unlink
     summary executable script_dir args w).1 = w.
Proof.
  intros Hbad. unfold main, load_items, bind, path_exists.
  destruct (decide (path_str (Path (items args)) ∈ files w)) as [Hin|Hout].
  - rewrite bool_decide_eq_true_2 by done. cbn [negb].
    destruct (load_json _ _) as [[|item rest]|]; [done| |done].
    destruct Hbad as [?|Hbad]; [done|]. exfalso. apply Hbad. eauto.
  - rewrite bool_decide_eq_false_2 by done. by destruct (stat_raises _ _).
Qed.

End Checks.

(** C9: a missing items file, an empty item list, and a screenshot
    that is missing for some item once the directories are made and the
    capture step is over each end [main] through [sys.exit] with a
    message naming the problem (for a screenshot, the first missing
    path), which gives a non-zero exit status; the composer has not
    been run by then.  Missing means that [os.stat] reports the file's
    absence rather than another error.  However the run goes, the
    composer is run only when the items file was there, the list was
    not empty and every expected screenshot was in place. *)
Theorem config_errors_abort (stat_raises : gset str -> str -> bool)
    (load_json : gset str -> str -> option (list Item))
    (mkdir : str -> Sys unit)
    (take_screenshot : str -> str -> str -> Z -> Sys unit)
    (write_temp : list Item -> Sys str) (run_composer : list str -> Sys Z)
    (unlink : str -> Sys unit) (summary : str -> Sys unit)
    (executable : str) (script_dir : PurePath) (args : Args) (w : World) :
  let outcome :=
    main stat_raises load_json mkdir take_screenshot write_temp run_composer unlink
      summary executable script_dir args w in
  let items_path := path_str (Path (items args)) in
  (∀ s, exit_code s ≠ 0)
  ∧ (items_path ∉ files w → stat_raises (files w) items_path = false →
     outcome = (w, Err (SysExit (msg_not_found items_path))))
  ∧ (items_path ∈ files w → load_json (files w) items_path = Some [] →
     outcome = (w, Err (SysExit msg_empty)))
  ∧ (∀ its w1 k,
        items_path ∈ files w → load_json (files w) items_path = Some its →
        prepare mkdir take_screenshot args its w = (w1, Ok tt) →
        (k < length its)%nat → shot_path args (1 + k) ∉ files w1 →
        (∀ j, (1 ≤ j ≤ 1 + k)%nat →
              stat_raises (files w1) (shot_path args j) = false) →
        ∃ j, (1 ≤ j ≤ 1 + k)%nat ∧ (shot_path args j ∉ files w1)
             ∧ outcome = (w1, Err (SysExit (msg_missing_shot (shot_path args j))))
             ∧ composer_runs w1 = composer_runs w)
  ∧ (composer_runs outcome.1 ≠ composer_runs w →
     ∃ its w1,
       items_path ∈ files w ∧ load_json (files w) items_path = Some its ∧ its ≠ []
       ∧ prepare mkdir take_screenshot args its w = (w1, Ok tt)
       ∧ ∀ k, (k < length its)%nat → shot_path args (1 + k) ∈ files w1).
Proof.
  intros outcome items_path. split; [done|]. split; [|split; [|split]].
  - intros Hout Hstat. unfold outcome, main, load_items, bind, path_exists.
    fold items_path. by rewrite bool_decide_eq_false_2, Hstat.
  - intros Hin Hload. unfold outcome, main, load_items, bind, path_exists.
    fold items_path. rewrite bool_decide_eq_true_2 by done. cbn [negb].
    by rewrite Hload.
  - intros its w1 k Hin Hload Hprep Hk Hmiss Hstat.
    destruct (augment_missing stat_raises args its [] 1 k w1 Hk Hmiss Hstat)
      as (j & Hj & Hjm & Haug).
    exists j. split; [done|]. split; [done|]. split.
    + unfold outcome.
      rewrite (main_after_load _ _ _ _ _ _ _ _ _ _ _ its) by
        (done || (intros ->; simpl in Hk; lia)).
      rewrite Hprep. unfold finish, bind. by rewrite Haug.
    + pose proof (prepare_runs mkdir take_screenshot args its w) as Hr.
      by rewrite Hprep in Hr.
  - intros Hruns.
    destruct (decide (items_path ∈ files w)) as [Hin|Hout].
    2: { exfalso. apply Hruns. unfold outcome.
         rewrite main_without_items; [done|by left]. }
    destruct (load_json (files w) items_path) as [[|item rest]|] eqn:Hload.
    1,3: exfalso; apply Hruns; unfold outcome;
         rewrite main_without_items; [done|right; fold items_path; rewrite Hload;
                                           by intros (? & ? & ?)..].
    exists (item :: rest).
    unfold outcome in Hruns.
    rewrite (main_after_load _ _ _ _ _ _ _ _ _ _ _ (item :: rest)) in Hruns by done.
    pose proof (prepare_runs mkdir take_screenshot args (item :: rest) w) as Hr.
    destruct (prepare _ _ _ _ w) as [w1 [[]|s]] eqn:Hprep; cbn [fst] in Hr.
    2: { by cbn [fst] in Hruns. }
    exists w1. split; [done|]. split; [done|]. split; [done|]. split; [done|].
    unfold finish, bind in Hruns.
    pose proof (augment_world stat_raises args (item :: rest) [] 1 w1) as Hw.
    destruct (augment stat_raises args 1 (item :: rest) [] w1) as [w2 [aug|s]] eqn:Haug;
      cbn [fst] in Hw; subst w2.
    + by eapply augment_Ok.
    + by cbn [fst] in Hruns.
Qed.

(** A run over one item whose screenshot was never taken, with the
    directories named as in the script's usage text. *)
Definition lone_item : Item := {[ py "url" := py "https://x.test/a" ]}.
Definition lone_args : Args :=
  mkArgs (py "items.json") (py "shots/") (py "out/") (py "chromium") 30000 true.
Definition lone_world : World := mkWorld {[ py "items.json" ]} [].

(** System calls for the examples: a [stat] that fails only for
    absence and one that fails otherwise, a [mkdir] that makes the
    directory and one that finds a file in its way, a browser that
    saves the screenshot, a composer that writes one story, and so
    on. *)
Definition absent_only (fs : gset str) (p : str) : bool := false.
Definition name_too_long (fs : gset str) (p : str) : bool := true.
Definition makes (p : str) : Sys unit := fun fs => ({[p]} ∪ fs, Ok tt).
Definition in_the_way (p : str) : Sys unit := fun fs => (fs, Err Uncaught).
Definition saves (u p b : str) (t : Z) : Sys unit := fun fs => ({[p]} ∪ fs, Ok tt).
Definition one_item (fs : gset str) (p : str) : option (list Item) := Some [lone_item].
Definition tmp_json (augmented : list Item) : Sys str :=
  fun fs => ({[ py "/tmp/tmp1.json" ]} ∪ fs, Ok (py "/tmp/tmp1.json")).
Definition composes (cmd : list str) : Sys Z :=
  fun fs => ({[ py "out/story_01.png" ]} ∪ fs, Ok 0).
Definition removes (p : str) : Sys unit := fun fs => (fs ∖ {[p]}, Ok tt).
Definition lists (p : str) : Sys unit := fun fs => (fs, Ok tt).
Definition scripts : PurePath := Path (py "/app/scripts").

(** The world of [lone_world] once both directories are made. *)
Definition with_dirs : World :=
  mkWorld ({[ py "out" ]} ∪ ({[ py "shots" ]} ∪ {[ py "items.json" ]})) [].

Lemma config_errors_abort_witness :
  path_str (Path (items lone_args)) ∈ files lone_world
  ∧ prepare makes saves lone_args [lone_item] lone_world = (with_dirs, Ok tt)
  ∧ shot_path lone_args (1 + 0) = py "shots/shot_01.png"
  ∧ (shot_path lone_args (1 + 0) ∉ files with_dirs)
  ∧ ∃ j, (1 ≤ j ≤ 1 + 0)%nat
      ∧ (shot_path lone_args j ∉ files with_dirs)
      ∧ main absent_only one_item makes saves tmp_json composes removes lists (py "python3")
          scripts lone_args lone_world
        = (with_dirs, Err (SysExit (msg_missing_shot (shot_path lone_args j))))
      ∧ composer_runs with_dirs = composer_runs lone_world.
Proof.
  assert (Hin : path_str (Path (items lone_args)) ∈ files lone_world).
  { unfold lone_world. cbn [files]. apply elem_of_singleton.
    vm_compute. reflexivity. }
  assert (Hprep : prepare makes saves lone_args [lone_item] lone_world
                  = (with_dirs, Ok tt)) by reflexivity.
  assert (Hmiss : shot_path lone_args (1 + 0) ∉ files with_dirs).
  { cbn [files with_dirs].
    rewrite !not_elem_of_union, !not_elem_of_singleton.
    repeat split; vm_compute; discriminate. }
  split; [exact Hin|]. split; [exact Hprep|].
  split; [vm_compute; reflexivity|]. split; [exact Hmiss|].
  destruct (config_errors_abort absent_only one_item makes saves tmp_json composes removes lists
              (py "python3") scripts lone_args lone_world) as (_ & _ & _ & Hshot & _).
  apply (Hshot [lone_item] with_dirs 0%nat Hin eq_refl Hprep).
  - simpl. lia.
  - exact Hmiss.
  - reflexivity.
Defined.

Example missing_items_file :
  main absent_only one_item makes saves tmp_json composes removes lists (py "python3")
    scripts lone_args (mkWorld ∅ [])
  = (mkWorld ∅ [], Err (SysExit (msg_not_found (py "items.json")))).
Proof.
  unfold main, load_items, bind, path_exists.
  by rewrite bool_decide_eq_false_2 by apply not_elem_of_empty.
Qed.

(** When [os.stat] fails on the items path for another reason than
    absence, the run ends with that exception. *)
Example items_name_too_long :
  main name_too_long one_item makes saves tmp_json composes removes lists (py "python3")
    scripts lone_args (mkWorld ∅ [])
  = (mkWorld ∅ [], Err Uncaught).
Proof.
  unfold main, load_items, bind, path_exists.
  by rewrite bool_decide_eq_false_2 by apply not_elem_of_empty.
Qed.

(** When something that is not a directory is in the way of
    [shots_dir], the run ends with the exception of [mkdir], not with
    the message about a missing screenshot. *)
Example shots_dir_in_the_way :
  main absent_only one_item in_the_way saves tmp_json composes removes lists
    (py "python3") scripts lone_args lone_world
  = (lone_world, Err Uncaught).
Proof.
  unfold main, load_items, bind at 1 2, path_exists.
  rewrite bool_decide_eq_true_2
    by (unfold lone_world; cbn [files]; apply elem_of_singleton; vm_compute;
        reflexivity).
  reflexivity.
Qed.

End OrchestratorFacts.

(** * Further properties *)

(** ** Stripping and joining words *)

Module StripFacts.
Import PyStrFacts.

(** [rstrip] keeps the head of what it returns. *)
Lemma rstrip_head (s r : str) (c : N) : rstrip s = c :: r → ∃ s', s = c :: s'.
Proof.
  destruct s as [|x s]; simpl; [done|].
  destruct (rstrip s); [destruct (is_space x)|]; intros [= <- _]; eauto.
Qed.

Lemma rstrip_idemp (s : str) : rstrip (rstrip s) = rstrip s.
Proof.
  induction s as [|c s IH]; simpl; [done|].
  destruct (rstrip s) as [|r rs] eqn:E.
  - destruct (is_space c) eqn:Ec; simpl; [done|]. by rewrite Ec.
  - simpl in *. by rewrite IH.
Qed.

(** What [lstrip] returns does not start with whitespace. *)
Lemma lstrip_head (s r : str) (c : N) : lstrip s = c :: r → is_space c = false.
Proof.
  induction s as [|x s IH]; simpl; [done|].
  destruct (is_space x) eqn:Ex; [done|]. by intros [= <- _].
Qed.

Lemma lstrip_nonspace (c : N) (s : str) : is_space c = false → lstrip (c :: s) = c :: s.
Proof. intros Hc. simpl. by rewrite Hc. Qed.

(** Stripping twice is stripping once. *)
Lemma strip_idemp (s : str) : strip (strip s) = strip s.
Proof.
  unfold strip. destruct (rstrip (lstrip s)) as [|c r] eqn:E; [done|].
  destruct (rstrip_head _ _ _ E) as [s' Hs'].
  rewrite lstrip_nonspace by (by eapply lstrip_head).
  by rewrite <- E, rstrip_idemp.
Qed.

Lemma rstrip_word (w : str) : is_word w → rstrip w = w.
Proof.
  intros [Hne Hw]. induction Hw as [|c w Hc Hw IH]; [done|]. simpl.
  destruct w as [|d w]; [simpl; by rewrite Hc|].
  rewrite IH by done. done.
Qed.

(** Nothing is stripped from the right of a string that ends in a word. *)
Lemma rstrip_app_word (a w : str) : is_word w → rstrip (a ++ w) = a ++ w.
Proof.
  intros Hw. induction a as [|x a IH]; simpl; [by apply rstrip_word|].
  rewrite IH. destruct (a ++ w) eqn:E; [|done].
  apply app_eq_nil in E as [_ ->]. by destruct Hw.
Qed.

Lemma join_cons (sep p : str) (q : str) (rest : list str) :
  join sep (p :: q :: rest) = p ++ sep ++ join sep (q :: rest).
Proof. done. Qed.

Lemma join_snoc (sep : str) (g : list str) (w : str) :
  g ≠ [] → join sep (g ++ [w]) = join sep g ++ sep ++ w.
Proof.
  induction g as [|p [|q rest] IH]; intros Hg; [done|done|].
  change ((p :: q :: rest) ++ [w]) with (p :: (q :: rest) ++ [w]).
  change ((q :: rest) ++ [w]) with (q :: rest ++ [w]) at 1.
  rewrite join_cons, join_cons.
  change (q :: rest ++ [w]) with ((q :: rest) ++ [w]).
  rewrite IH by done. by rewrite <- !app_assoc.
Qed.

(** A space-joined run of words has nothing to strip. *)
Lemma strip_join_words (g : list str) :
  Forall is_word g → g ≠ [] → strip (join (py " ") g) = join (py " ") g.
Proof.
  intros Hg Hne. unfold strip.
  assert (Hl : lstrip (join (py " ") g) = join (py " ") g).
  { destruct g as [|w g]; [done|]. apply Forall_cons in Hg as [[Hw Hcs] _].
    destruct w as [|c w]; [done|]. apply Forall_cons in Hcs as [Hc _].
    destruct g; apply lstrip_nonspace, Hc. }
  rewrite Hl.
  destruct (exists_last Hne) as (g' & w & ->).
  apply Forall_app in Hg as [_ [Hw _]%Forall_cons].
  destruct g' as [|p g']; [by apply rstrip_word|].
  rewrite join_snoc by done. rewrite app_assoc. by apply rstrip_app_word.
Qed.

(** The line tried by the wrap loop when [cur] is a run of words. *)
Lemma test_line_join (g : list str) (w : str) :
  Forall is_word g → is_word w →
  strip (join (py " ") g ++ py " " ++ w) = join (py " ") (g ++ [w]).
Proof.
  intros Hg Hw. destruct g as [|p g].
  - cbn [join app]. unfold strip. change (py " " ++ w) with (32%N :: w).
    cbn [lstrip]. change (is_space 32) with true. cbv iota.
    destruct Hw as [Hne Hcs]. destruct w as [|c w]; [done|].
    apply Forall_cons in Hcs as [Hc Hcs].
    rewrite lstrip_nonspace by done. apply rstrip_word. split; [done|by constructor].
  - rewrite <- join_snoc by done. apply strip_join_words; [|by destruct g].
    apply Forall_app. split; [done|by constructor].
Qed.

End StripFacts.

(** ** Greedy wrap: the shape of the lines *)

Module WrapShape.
Import MakeStory PyStrFacts StripFacts WrapFacts.

(** Every two neighbours of a list are related. *)
Fixpoint chain {A} (R : A -> A -> Prop) (l : list A) : Prop :=
  match l with
  | a :: (b :: _) as rest => R a b ∧ chain R rest
  | _ => True
  end.

Lemma chain_snoc {A} (R : A -> A -> Prop) (l : list A) (a b : A) :
  chain R (l ++ [a]) → R a b → chain R (l ++ [a; b]).
Proof.
  induction l as [|x [|y l] IH]; simpl in *; tauto.
Qed.

Lemma chain_last {A} (R : A -> A -> Prop) (l : list A) (a a' : A) :
  chain R (l ++ [a]) → (∀ z, R z a → R z a') → chain R (l ++ [a']).
Proof.
  induction l as [|x [|y l] IH]; simpl in *; [tauto| |tauto].
  intros [Hxa _] Himp. split; [by apply Himp|done].
Qed.

Lemma chain_lookup {A} (R : A -> A -> Prop) (l : list A) (i : nat) (a b : A) :
  chain R l → l !! i = Some a → l !! S i = Some b → R a b.
Proof.
  revert i. induction l as [|x [|y l] IH]; intros i Hl Hi Hsi; [done|by destruct i|].
  destruct Hl as [Hxy Hrest]. destruct i as [|i].
  - simpl in *. by simplify_eq.
  - by apply (IH i).
Qed.

Lemma join_words_nil (g : list str) :
  Forall is_word g → join (py " ") g = [] → g = [].
Proof.
  destruct g as [|w g]; [done|]. intros [[Hne _] _]%Forall_cons.
  destruct w; [done|]. by destruct g.
Qed.

(** A space-joined run of words splits back into the run. *)
Lemma split_join_words (g : list str) :
  Forall is_word g → split (join (py " ") g) = g.
Proof.
  intros Hg. rewrite split_join.
  induction Hg as [|w g Hw _ IH]; [done|].
  rewrite fmap_cons. cbn [concat]. rewrite (split_word w) by done.
  by rewrite IH.
Qed.

Section Shape.
Variable textlength : Font -> str -> Q.
Variable font : Font.
Variable max_width : Z.

(** The line does not fit the width. *)
Definition overflows (l : str) : Prop :=
  (inject_Z max_width < textlength font l)%Q.

(** A break between two runs of words is forced: the first run with the
    first word of the second would not fit. *)
Definition forced (g h : list str) : Prop :=
  ∃ w h', h = w :: h' ∧ overflows (join (py " ") (g ++ [w])).

(** The runs closed so far and the run being built, as one list. *)
Definition runs (gs : list (list str)) (g : list str) : list (list str) :=
  match g with [] => gs | _ => gs ++ [g] end.

Lemma wrap_loop_runs (ws : list str) (gs : list (list str)) (g : list str) :
  Forall is_word ws → Forall is_word g → Forall (fun h => h ≠ []) gs →
  (g = [] → gs = []) → chain forced (runs gs g) →
  ∃ gs', closed (wrap_loop textlength font max_width ws
                   (join (py " ") <$> gs) (join (py " ") g))
         = join (py " ") <$> gs'
    ∧ concat gs' = concat gs ++ g ++ ws
    ∧ Forall (fun h => h ≠ []) gs'
    ∧ chain forced gs'.
Proof.
  intros Hws. revert gs g.
  induction Hws as [|w ws Hw Hws IH]; intros gs g Hg Hgs Hnil Hch.
  - exists (runs gs g). unfold closed, runs. cbn [wrap_loop fst snd].
    destruct g as [|p g].
    + cbn. by rewrite !app_nil_r.
    + assert (Hne : join (py " ") (p :: g) ≠ []).
      { intros E. by apply join_words_nil in E. }
      apply truthy_true in Hne as ->.
      rewrite fmap_app, concat_app. cbn. rewrite !app_nil_r. repeat split; [|done].
      apply Forall_app. split; [done|by repeat constructor].
  - cbn [wrap_loop]. rewrite test_line_join by done.
    destruct (Qle_bool _ _) eqn:E.
    + destruct (IH gs (g ++ [w])) as (gs' & Hcl & Hcat & Hne & Hch').
      * apply Forall_app. split; [done|by constructor].
      * done.
      * intros Habs. by destruct g.
      * unfold runs in *. destruct g as [|p g]; cbn [app].
        -- rewrite Hnil by done. done.
        -- eapply chain_last; [exact Hch|].
           intros z (w0 & h' & [= -> ->] & Hov). by exists w0, (h' ++ [w]).
      * exists gs'. rewrite Hcat, <- !app_assoc. done.
    + apply overflow_test in E.
      destruct g as [|p g].
      * rewrite (Hnil eq_refl) in *. cbn [truthy join].
        destruct (IH [] [w]) as (gs' & Hcl & Hcat & Hne & Hch');
          [by apply Forall_singleton|done|done|done|].
        exists gs'. by rewrite Hcat.
      * assert (Hne : join (py " ") (p :: g) ≠ []).
        { intros Habs. by apply join_words_nil in Habs. }
        apply truthy_true in Hne as ->.
        change [join (py " ") (p :: g)] with (join (py " ") <$> [p :: g]).
        rewrite <- fmap_app.
        destruct (IH (gs ++ [p :: g]) [w]) as (gs' & Hcl & Hcat & Hne & Hch').
        -- by apply Forall_singleton.
        -- apply Forall_app. split; [done|by repeat constructor].
        -- done.
        -- unfold runs in *. rewrite <- app_assoc. cbn [app].
           apply chain_snoc; [done|]. by exists w, [].
        -- exists gs'. rewrite Hcat, concat_app. cbn.
           by rewrite app_nil_r, <- !app_assoc.
Qed.

Lemma wrap_text_runs (text : str) :
  ∃ gs, wrap_text textlength text font max_width = join (py " ") <$> gs
    ∧ concat gs = split text
    ∧ Forall (fun h => h ≠ []) gs
    ∧ chain forced gs.
Proof.
  rewrite wrap_text_closed.
  destruct (wrap_loop_runs (split text) [] []) as (gs & Hcl & Hcat & Hne & Hch);
    [apply split_words|done..|].
  exists gs. by rewrite Hcat.
Qed.

(** When every line tried fits, the loop never closes a line. *)
Lemma wrap_loop_all_fit (ws g : list str) :
  Forall is_word ws → Forall is_word g →
  (∀ k, (0 < k ≤ length ws)%nat → fits textlength font max_width
                                     (join (py " ") (g ++ take k ws))) →
  wrap_loop textlength font max_width ws [] (join (py " ") g)
  = ([], join (py " ") (g ++ ws)).
Proof.
  intros Hws. revert g. induction Hws as [|w ws Hw Hws IH]; intros g Hg Hfit.
  - by rewrite app_nil_r.
  - cbn [wrap_loop]. rewrite test_line_join by done.
    assert (Hfirst : fits textlength font max_width (join (py " ") (g ++ [w]))).
    { apply (Hfit 1%nat). simpl. lia. }
    apply fits_test in Hfirst as ->.
    rewrite IH.
    + by rewrite <- app_assoc.
    + apply Forall_app. split; [done|by apply Forall_singleton].
    + intros k Hk. rewrite <- app_assoc. apply (Hfit (S k)). simpl. lia.
Qed.

End Shape.

Lemma Forall_concat_inv {A} (P : A -> Prop) (gs : list (list A)) :
  Forall P (concat gs) → Forall (Forall P) gs.
Proof.
  induction gs as [|g gs IH]; simpl; [done|].
  intros [Hg Hgs]%Forall_app. constructor; auto.
Qed.

Lemma length_concat_nonempty {A} (gs : list (list A)) :
  Forall (fun h => h ≠ []) gs → (length gs ≤ length (concat gs))%nat.
Proof.
  induction 1 as [|h gs Hh _ IH]; simpl; [done|].
  rewrite length_app. destruct h; [done|]. simpl. lia.
Qed.

(** X3: Every line of [wrap_text] is its own words joined by single spaces,
    with no whitespace before, after or doubled, and has at least one
    word; there are no more lines than words. *)
Theorem wrap_text_lines_are_runs (textlength : Font -> str -> Q) (text : str)
    (font : Font) (max_width : Z) :
  Forall (fun l => l = join (py " ") (split l) ∧ split l ≠ [] ∧ strip l = l)
    (wrap_text textlength text font max_width)
  ∧ (length (wrap_text textlength text font max_width) ≤ length (split text))%nat.
Proof.
  destruct (wrap_text_runs textlength font max_width text)
    as (gs & -> & Hcat & Hne & _).
  assert (Hwords : Forall (Forall is_word) gs).
  { apply Forall_concat_inv. rewrite Hcat. apply split_words. }
  split.
  - apply Forall_fmap, Forall_forall. intros g Hg. cbn.
    rewrite Forall_forall in Hwords, Hne.
    rewrite split_join_words by auto.
    split; [done|]. split; [auto|]. apply strip_join_words; auto.
  - rewrite length_fmap, <- Hcat. by apply length_concat_nonempty.
Qed.

(** X4: A line break is never early: the line before it, a space and the
    first word of the line after it measure more than the maximum
    width. *)
Theorem wrap_text_breaks_forced (textlength : Font -> str -> Q) (text : str)
    (font : Font) (max_width : Z) (i : nat) (a b : str) :
  wrap_text textlength text font max_width !! i = Some a →
  wrap_text textlength text font max_width !! S i = Some b →
  ∃ w rest, split b = w :: rest
    ∧ (inject_Z max_width < textlength font (a ++ py " " ++ w))%Q.
Proof.
  destruct (wrap_text_runs textlength font max_width text)
    as (gs & -> & Hcat & Hne & Hch).
  rewrite !list_lookup_fmap. intros Ha Hb.
  destruct (gs !! i) as [g|] eqn:Eg; [|done].
  destruct (gs !! S i) as [h|] eqn:Eh; [|done].
  injection Ha as <-. injection Hb as <-.
  destruct (chain_lookup _ _ _ _ _ Hch Eg Eh) as (w & h' & -> & Hov).
  assert (Hwords : ∀ g', g' ∈ gs → Forall is_word g').
  { apply Forall_forall, Forall_concat_inv. rewrite Hcat. apply split_words. }
  exists w, h'. split.
  - apply split_join_words, Hwords. by eapply list_elem_of_lookup_2.
  - unfold overflows in Hov. rewrite join_snoc in Hov; [done|].
    rewrite Forall_forall in Hne. apply Hne. by eapply list_elem_of_lookup_2.
Qed.

(** X5: A text of which every beginning fits is not broken: it comes back
    as one line, its words joined by single spaces. *)
Theorem wrap_text_fits_one_line (textlength : Font -> str -> Q) (text : str)
    (font : Font) (max_width : Z) :
  split text ≠ [] →
  (∀ k, (0 < k ≤ length (split text))%nat →
        (textlength font (join (py " ") (take k (split text)))
         <= inject_Z max_width)%Q) →
  wrap_text textlength text font max_width = [join (py " ") (split text)].
Proof.
  intros Hne Hfit. unfold wrap_text.
  change (@nil N) with (join (py " ") []) at 1.
  rewrite wrap_loop_all_fit; [|apply split_words|done|exact Hfit].
  cbn [app].
  assert (Hj : join (py " ") (split text) ≠ []).
  { intros E. by apply join_words_nil in E; [|apply split_words]. }
  by apply truthy_true in Hj as ->.
Qed.

Definition sans : Font := mkFont dejavu 42.

Lemma wrap_text_breaks_forced_witness :
  wrap_text ten_each (py "one two  three four") sans 70 !! 0%nat = Some (py "one two")
  ∧ wrap_text ten_each (py "one two  three four") sans 70 !! 1%nat = Some (py "three")
  ∧ ∃ w rest, split (py "three") = w :: rest
      ∧ (inject_Z 70 < ten_each sans (py "one two" ++ py " " ++ w))%Q.
Proof.
  assert (H0 : wrap_text ten_each (py "one two  three four") sans 70 !! 0%nat
               = Some (py "one two")) by (vm_compute; reflexivity).
  assert (H1 : wrap_text ten_each (py "one two  three four") sans 70 !! 1%nat
               = Some (py "three")) by (vm_compute; reflexivity).
  split; [exact H0|]. split; [exact H1|].
  exact (wrap_text_breaks_forced ten_each (py "one two  three four") sans 70
           0 (py "one two") (py "three") H0 H1).
Defined.

Lemma wrap_text_fits_one_line_witness :
  split (py " AI  chips ") ≠ []
  ∧ wrap_text ten_each (py " AI  chips ") sans 80 = [join (py " ") (split (py " AI  chips "))].
Proof.
  assert (Hne : split (py " AI  chips ") ≠ []) by (vm_compute; discriminate).
  split; [exact Hne|].
  apply (wrap_text_fits_one_line ten_each (py " AI  chips ") sans 80 Hne).
  intros k Hk. change (length (split (py " AI  chips "))) with 2%nat in Hk.
  assert (Hk' : k = 1%nat ∨ k = 2%nat) by lia.
  destruct Hk' as [-> | ->]; vm_compute; discriminate.
Defined.

End WrapShape.

(** ** Replacing a substring *)

Module ReplaceFacts.

(** [old] occurs nowhere in [s]. *)
Definition absent (old s : str) : Prop := ∀ a b, s ≠ a ++ old ++ b.

Lemma starts_with_app (old t : str) : starts_with old (old ++ t) = true.
Proof.
  induction old as [|c old IH]; simpl; [done|]. by rewrite N.eqb_refl, IH.
Qed.

Lemma starts_with_inv (old s : str) :
  starts_with old s = true → ∃ t, s = old ++ t.
Proof.
  revert s. induction old as [|c old IH]; intros s; simpl; [by eexists|].
  destruct s as [|d s]; [done|].
  intros [->%N.eqb_eq [t ->]%IH]%andb_true_iff. by exists t.
Qed.

Lemma absent_tail (old : str) (c : N) (s : str) : absent old (c :: s) → absent old s.
Proof. intros H a b ->. by apply (H (c :: a) b). Qed.

(** Replacing what does not occur changes nothing. *)
Lemma replace_absent (old new s : str) : absent old s → replace old new s = s.
Proof.
  unfold replace. induction s as [|c s IH]; intros Habs; simpl; [done|].
  destruct (starts_with old (c :: s)) eqn:E.
  - apply starts_with_inv in E as [t E]. by destruct (Habs [] t).
  - f_equal. by eapply IH, absent_tail.
Qed.

(** After a replacement the scan resumes behind the occurrence. *)
Lemma replace_from_skip (old new a s : str) :
  replace_from old new (length a) (a ++ s) = replace_from old new 0 s.
Proof. induction a as [|c a IH]; simpl; [by destruct s|done]. Qed.

Lemma replace_prefix (old new rest : str) :
  old ≠ [] → replace old new (old ++ rest) = new ++ replace old new rest.
Proof.
  intros Hne. unfold replace. destruct old as [|c old]; [done|].
  pose proof (starts_with_app (c :: old) rest) as E.
  cbn [app] in *. cbn [replace_from]. rewrite E.
  replace (length (c :: old) - 1)%nat with (length old) by (simpl; lia).
  by rewrite replace_from_skip.
Qed.

(** A test for occurrence, to settle [absent] on given strings. *)
Fixpoint occurs (old s : str) : bool :=
  starts_with old s
  || match s with
     | [] => false
     | _ :: s' => occurs old s'
     end.

Lemma occurs_app (old a b : str) : occurs old (a ++ old ++ b) = true.
Proof.
  induction a as [|c a IH]; cbn [app].
  - destruct (old ++ b) eqn:E; simpl.
    + apply app_eq_nil in E as [-> _]. done.
    + rewrite <- E, starts_with_app. done.
  - simpl. rewrite IH. apply orb_true_r.
Qed.

Lemma occurs_absent (old s : str) : occurs old s = false → absent old s.
Proof. intros Hocc a b ->. by rewrite occurs_app in Hocc. Qed.

End ReplaceFacts.

(** ** Story composition: layout, footer and cover fit *)

Module LayoutFacts.
Import MakeStory PyStrFacts WrapFacts ReplaceFacts.

(** The lines of a block, the [k]-th one [k] steps below the first. *)
Definition block (lines : list str) (x y : Z) (font : Font) (fill : rgba)
    (step : Z) : list Op :=
  imap (fun k ln => DrawText (x, y + step * Z.of_nat k) ln font fill) lines.

Lemma draw_lines_block (lines : list str) (x y : Z) (font : Font) (fill : rgba)
    (step : Z) (drawn : list Op) :
  draw_lines lines x y font fill step drawn
  = (drawn ++ block lines x y font fill step, y + step * Z.of_nat (length lines)).
Proof.
  revert y drawn. induction lines as [|ln lines IH]; intros y drawn.
  - cbn. rewrite app_nil_r. f_equal. lia.
  - cbn [draw_lines]. rewrite IH. unfold block. rewrite imap_cons.
    rewrite <- app_assoc. cbn [app length]. f_equal.
    + f_equal. f_equal; [f_equal; f_equal; lia|].
      apply imap_ext. intros k ln' _. cbn. do 2 f_equal. lia.
    + lia.
Qed.

Section Layout.
Variable textlength : Font -> str -> Q.
Variable truetype : str -> Z -> option Font.
Variable load_default : Font.

Let font := load_font truetype load_default.
Let wrap (field : option str) (f : Font) : list str :=
  take 3 (wrap_text textlength (strip (get field [])) f 940).

(** X6: The drawing operations of [render], in order: blur, darkening
    layer, the title lines from y = 140, the subtitle lines from 20
    below the end of the title, then, only when the impact text is not
    blank, the bar at y = 1530 with the impact lines from y = 1570 on
    it, and the footer at (70, 1850); all text starts at x = 70 and each
    block steps by its font size plus its spacing. *)
Theorem render_layout (shot bg : Image) (item : Item) :
  fit_cover shot W H = Some bg →
  render textlength truetype load_default shot item
  = Some (mkCanvas bg
      ([GaussianBlur 2; AlphaComposite 1080 1920 (0, 0, 0, 140) (0, 0)]
       ++ block (wrap (title item) (font 64 true)) 70 140 (font 64 true)
            (255, 255, 255, 255) (size (font 64 true) + 10)
       ++ block (wrap (subtitle item) (font 42 false)) 70
            (140 + (size (font 64 true) + 10)
                   * Z.of_nat (length (wrap (title item) (font 64 true))) + 20)
            (font 42 false) (230, 230, 230, 255) (size (font 42 false) + 8)
       ++ (if truthy (strip (get (impact item) []))
           then AlphaComposite 1080 220 (0, 0, 0, 170) (0, 1530)
                :: block (wrap (impact item) (font 48 true)) 70 1570 (font 48 true)
                     (255, 255, 255, 255) (size (font 48 true) + 10)
           else [])
       ++ [DrawText (70, 1850)
             (take 60 (replace (py "http://") []
                         (replace (py "https://") [] (get (url item) []))))
             (font 28 false) (200, 200, 200, 255)])).
Proof.
  intros Hbg. unfold render. rewrite Hbg. cbn [mbind option_bind].
  change (W - 2 * 70) with 940. change (H - 220 - 170) with 1530.
  change (1530 + 40) with 1570. change (H - 70) with 1850.
  change W with 1080. change H with 1920.
  rewrite draw_lines_block.
  assert (Hsub : wrap (subtitle item) (font 42 false) = []
                 ∨ truthy (strip (get (subtitle item) [])) = true).
  { destruct (truthy _) eqn:E; [by right|left].
    apply PyStrFacts.truthy_false in E. unfold wrap. rewrite E.
    by rewrite wrap_text_blank. }
  destruct (truthy (strip (get (subtitle item) []))) eqn:Es.
  - rewrite draw_lines_block.
    destruct (truthy (strip (get (impact item) []))).
    + rewrite draw_lines_block. cbn [fst].
      do 2 f_equal; by rewrite <- ?app_assoc.
    + do 2 f_equal; by rewrite <- ?app_assoc.
  - destruct Hsub as [Hsub|]; [|done]. fold font in Hsub |- *.
    unfold wrap in Hsub. unfold wrap. rewrite Hsub.
    destruct (truthy (strip (get (impact item) []))).
    + rewrite draw_lines_block. cbn [fst].
      do 2 f_equal; by rewrite <- ?app_assoc.
    + do 2 f_equal; by rewrite <- ?app_assoc.
Qed.

(** The footer [render] draws, whatever else it draws. *)
Lemma render_footer (shot bg : Image) (item : Item) :
  fit_cover shot W H = Some bg →
  ∃ cv, render textlength truetype load_default shot item = Some cv
    ∧ last (ops cv)
      = Some (DrawText (70, 1850)
                (take 60 (replace (py "http://") []
                            (replace (py "https://") [] (get (url item) []))))
                (font 28 false) (200, 200, 200, 255)).
Proof.
  intros Hbg. unfold render. rewrite Hbg. cbn [mbind option_bind].
  destruct (draw_lines _ _ _ _ _ _ _) as [cv1 y1].
  destruct (if truthy (strip (get (subtitle item) [])) then _ else _) as [cv2 y2].
  eexists. split; [reflexivity|]. cbn [ops]. by rewrite last_snoc.
Qed.

End Layout.

Lemma https_absent_in_http (rest : str) :
  replace (py "https://") [] (py "http://" ++ rest)
  = py "http://" ++ replace (py "https://") [] rest.
Proof. reflexivity. Qed.

(** X7: For a URL that is an optional leading ['https://'] or ['http://']
    followed by text in which neither scheme occurs, the footer is that
    text, cut to 60 characters. *)
Theorem render_footer_scheme_stripped (textlength : Font -> str -> Q)
    (truetype : str -> Z -> option Font) (load_default : Font)
    (shot bg : Image) (item : Item) (rest : str) :
  fit_cover shot W H = Some bg →
  absent (py "https://") rest → absent (py "http://") rest →
  get (url item) [] = py "https://" ++ rest
  ∨ get (url item) [] = py "http://" ++ rest
  ∨ get (url item) [] = rest →
  ∃ cv, render textlength truetype load_default shot item = Some cv
    ∧ last (ops cv)
      = Some (DrawText (70, 1850) (take 60 rest)
                (load_font truetype load_default 28 false) (200, 200, 200, 255))
    ∧ (length (take 60 rest) ≤ 60)%nat.
Proof.
  intros Hbg Hs Hp Hurl.
  destruct (render_footer textlength truetype load_default shot bg item Hbg)
    as (cv & Hcv & Hlast).
  exists cv. split; [done|]. split; [|rewrite length_take; lia].
  rewrite Hlast. do 3 f_equal.
  destruct Hurl as [-> | [-> | ->]].
  - rewrite replace_prefix by (vm_compute; discriminate).
    rewrite (replace_absent (py "https://") [] rest Hs). cbn [app].
    apply (replace_absent (py "http://") [] rest Hp).
  - rewrite https_absent_in_http, (replace_absent (py "https://") [] rest Hs).
    rewrite replace_prefix by (vm_compute; discriminate). cbn [app].
    apply (replace_absent (py "http://") [] rest Hp).
  - rewrite (replace_absent (py "https://") [] rest Hs).
    apply (replace_absent (py "http://") [] rest Hp).
Qed.

Definition plain_fonts (p : str) (sz : Z) : option Font := Some (mkFont p sz).

Lemma render_layout_witness :
  ∃ bg, fit_cover (picture 1080 1920) W H = Some bg
    ∧ render ten_each plain_fonts (mkFont [] 10) (picture 1080 1920)
        (mkItem (Some (py " AI chips ")) (Some (py "https://x.test/a")) None
                (Some (py "big")))
      = Some (mkCanvas bg
          [GaussianBlur 2; AlphaComposite 1080 1920 (0, 0, 0, 140) (0, 0);
           DrawText (70, 140) (py "AI chips") (mkFont dejavu_bold 64)
             (255, 255, 255, 255);
           AlphaComposite 1080 220 (0, 0, 0, 170) (0, 1530);
           DrawText (70, 1570) (py "big") (mkFont dejavu_bold 48)
             (255, 255, 255, 255);
           DrawText (70, 1850) (py "x.test/a") (mkFont dejavu 28)
             (200, 200, 200, 255)]).
Proof.
  destruct (fit_cover (picture 1080 1920) W H) as [bg|] eqn:E.
  - exists bg. split; [reflexivity|].
    rewrite (render_layout ten_each plain_fonts (mkFont [] 10) (picture 1080 1920) bg
               (mkItem (Some (py " AI chips ")) (Some (py "https://x.test/a")) None
                       (Some (py "big"))) E).
    vm_compute. reflexivity.
  - exfalso. vm_compute in E. discriminate E.
Defined.

Lemma render_footer_scheme_stripped_witness :
  ∃ bg, fit_cover (picture 1080 1920) W H = Some bg
    ∧ absent (py "https://") (py "x.test/a")
    ∧ absent (py "http://") (py "x.test/a")
    ∧ ∃ cv, render ten_each plain_fonts (mkFont [] 10) (picture 1080 1920)
              (mkItem None (Some (py "http://x.test/a")) None None) = Some cv
        ∧ last (ops cv)
          = Some (DrawText (70, 1850) (take 60 (py "x.test/a"))
                    (load_font plain_fonts (mkFont [] 10) 28 false)
                    (200, 200, 200, 255))
        ∧ (length (take 60 (py "x.test/a")) ≤ 60)%nat.
Proof.
  assert (Hs : absent (py "https://") (py "x.test/a"))
    by (apply occurs_absent; vm_compute; reflexivity).
  assert (Hp : absent (py "http://") (py "x.test/a"))
    by (apply occurs_absent; vm_compute; reflexivity).
  destruct (fit_cover (picture 1080 1920) W H) as [bg|] eqn:E.
  - exists bg. split; [reflexivity|]. split; [exact Hs|]. split; [exact Hp|].
    apply (render_footer_scheme_stripped ten_each plain_fonts (mkFont [] 10)
             (picture 1080 1920) bg
             (mkItem None (Some (py "http://x.test/a")) None None)
             (py "x.test/a") E Hs Hp).
    right. left. reflexivity.
  - exfalso. vm_compute in E. discriminate E.
Defined.

End LayoutFacts.

(** ** Cover fit: size, errors and when a border appears *)

Module CoverFacts.
Import MakeStory RenderFacts.

Lemma inside_true (w h x y : Z) :
  inside w h x y = true ↔ 0 <= x < w ∧ 0 <= y < h.
Proof.
  unfold inside. rewrite !andb_true_iff, !Z.leb_le, !Z.ltb_lt. lia.
Qed.

(** X1: A source with an empty side makes [fit_cover] raise (division by
    zero); whenever [fit_cover] returns, the result is exactly [w] by
    [h], whatever the shape of the source. *)
Theorem fit_cover_size_or_error (img : Image) (w h : Z) :
  (width img = 0 ∨ height img = 0 → fit_cover img w h = None)
  ∧ (∀ out, fit_cover img w h = Some out →
            width out = w ∧ height out = h ∧ 0 <= w ∧ 0 <= h).
Proof.
  split.
  - unfold fit_cover, true_div. intros [-> | ->]; [done|].
    by destruct (width img =? 0).
  - intros out Hout. destruct (fit_cover_size img out w h Hout) as [Hw Hh].
    split; [done|]. split; [done|].
    unfold fit_cover, true_div, resize, crop in Hout.
    repeat (case_match; simplify_option_eq); lia.
Qed.

Lemma fit_cover_size_or_error_witness :
  fit_cover (picture 1280 720) 1080 1920
  = crop (picture 3413 1920) 1166 0 (1166 + 1080) (0 + 1920)
  ∧ ∃ out, fit_cover (picture 1280 720) 1080 1920 = Some out
      ∧ width out = 1080 ∧ height out = 1920 ∧ 0 <= 1080 ∧ 0 <= 1920.
Proof.
  split; [vm_compute; reflexivity|].
  destruct (fit_cover (picture 1280 720) 1080 1920) as [out|] eqn:E.
  - exists out. split; [reflexivity|].
    by apply (fit_cover_size_or_error (picture 1280 720) 1080 1920).
  - exfalso. vm_compute in E. discriminate E.
Defined.

(** X2: The result of [fit_cover] is free of fill exactly when neither
    truncated scaled side is shorter than the side asked for. *)
Theorem fit_cover_border_iff (img out : Image) (w h : Z) (rw rh : float) :
  true_div w (width img) = Some rw →
  true_div h (height img) = Some rh →
  fit_cover img w h = Some out →
  0 < w → 0 < h →
  let scale := fmax rw rh in
  let nw := int_of_float (PrimFloat.mul (float_of_int (width img)) scale) in
  let nh := int_of_float (PrimFloat.mul (float_of_int (height img)) scale) in
  borderless out ↔ w <= nw ∧ h <= nh.
Proof.
  intros Hrw Hrh Hout Hw Hh scale nw nh.
  unfold fit_cover in Hout. rewrite Hrw, Hrh in Hout. cbn [mbind option_bind] in Hout.
  fold scale nw nh in Hout. unfold resize in Hout.
  destruct ((0 <? nw) && (0 <? nh)); [|done]. cbn [mbind option_bind] in Hout.
  unfold crop in Hout. destruct (_ && _); [|done]. injection Hout as <-.
  unfold borderless. cbn [width height backed picture].
  set (left := (nw - w) `div` 2). set (top := (nh - h) `div` 2).
  assert (Hleft : 0 <= left ↔ w <= nw) by (unfold left; Z.div_mod_to_equations; lia).
  assert (Htop : 0 <= top ↔ h <= nh) by (unfold top; Z.div_mod_to_equations; lia).
  assert (Hl2 : w <= nw → left + w <= nw) by (unfold left; Z.div_mod_to_equations; lia).
  assert (Ht2 : h <= nh → top + h <= nh) by (unfold top; Z.div_mod_to_equations; lia).
  split.
  - intros Hb. specialize (Hb 0 0). rewrite !andb_true_iff, !inside_true in Hb.
    destruct Hb as [_ [? ?]]; lia.
  - intros [Hnw Hnh] x y Hx Hy. rewrite !andb_true_iff, !inside_true. lia.
Qed.

Lemma fit_cover_border_iff_witness :
  ∃ out, fit_cover (picture 410 410) 1080 1920 = Some out
    ∧ (borderless out ↔ 1080 <= 1919 ∧ 1920 <= 1919).
Proof.
  destruct (fit_cover (picture 410 410) 1080 1920) as [out|] eqn:E.
  - exists out. split; [reflexivity|].
    refine (fit_cover_border_iff (picture 410 410) out 1080 1920 _ _
              eq_refl eq_refl E _ _); reflexivity.
  - exfalso. vm_compute in E. discriminate E.
Defined.

End CoverFacts.

(** ** File names by index *)

From Stdlib Require DecimalNat.

Module NameFacts.
Import GenStories.

(** Reading a decimal numeral back. *)
Definition digit_step (acc : nat) (c : N) : nat := acc * 10 + (N.to_nat c - 48).

Definition nat_of_digits (s : str) : nat := fold_left digit_step s 0%nat.

Lemma digits_of_uint_acc (u : Decimal.uint) (acc : nat) :
  fold_left digit_step (digits u) acc = Nat.of_uint_acc u acc.
Proof.
  revert acc. induction u; intros acc; cbn [digits fold_left Nat.of_uint_acc];
    [done|rewrite IHu; f_equal; unfold digit_step;
          rewrite Nat.tail_mul_spec; cbn; lia..].
Qed.

Lemma zeros_read_nothing (k : nat) : fold_left digit_step (replicate k 48%N) 0%nat = 0%nat.
Proof. induction k as [|k IH]; [done|]. cbn. exact IH. Qed.

(** [f"{i:02d}"] read back as a number is [i]. *)
Lemma format_02d_read (i : nat) : nat_of_digits (format_02d i) = i.
Proof.
  unfold nat_of_digits, format_02d. rewrite fold_left_app, zeros_read_nothing.
  rewrite digits_of_uint_acc. apply DecimalNat.Unsigned.of_to.
Qed.

Lemma format_02d_inj (i j : nat) : format_02d i = format_02d j → i = j.
Proof.
  intros E. rewrite <- (format_02d_read i), <- (format_02d_read j). by rewrite E.
Qed.

(** A text without a slash. *)
Definition slashless (s : str) : Prop := Forall (fun c => c ≠ 47%N) s.

Lemma digits_slashless (u : Decimal.uint) : slashless (digits u).
Proof. induction u; cbn [digits]; by constructor. Qed.

Lemma format_02d_slashless (i : nat) : slashless (format_02d i).
Proof.
  unfold format_02d. apply Forall_app. split; [|apply digits_slashless].
  by apply Forall_replicate.
Qed.

Lemma split_sep_slashless (cur s : str) :
  slashless s → split_sep cur s = [cur ++ s].
Proof.
  revert cur. induction s as [|c s IH]; intros cur Hs; cbn [split_sep].
  - by rewrite app_nil_r.
  - apply Forall_cons in Hs as [Hc Hs].
    destruct (N.eqb_spec c 47); [done|]. rewrite IH by done.
    by rewrite <- app_assoc.
Qed.

(** A single path component: not empty, not ['.'], no slash. *)
Definition component (s : str) : Prop := slashless s ∧ s ≠ [] ∧ s ≠ py ".".

Lemma Path_component (s : str) : component s → Path s = mkPath [] [s].
Proof.
  intros (Hs & Hne & Hdot). unfold Path.
  assert (Hroot : splitroot s = ([], s)).
  { unfold splitroot. destruct s as [|c s]; [done|].
    apply Forall_cons in Hs as [Hc _]. cbn [starts_with py fmap list_fmap
      list_ascii_of_string]. 
    change (N_of_ascii "/") with 47%N.
    destruct (N.eqb_spec 47 c) as [<-|]; [done|]. done. }
  rewrite Hroot. cbn [fst snd]. rewrite split_sep_slashless by done. cbn [app].
  rewrite filter_cons, decide_True by done. done.
Qed.

(** Under [p], a component is appended as it is. *)
Lemma joinpath_component (p : PurePath) (s : str) :
  component s → joinpath p s = mkPath (root p) (parts p ++ [s]).
Proof. intros Hs. unfold joinpath. by rewrite Path_component. Qed.

(** The text in front of the last component. *)
Definition dir_prefix (p : PurePath) : str :=
  root p ++ match parts p with
            | [] => []
            | _ :: _ => join (py "/") (parts p) ++ py "/"
            end.

Lemma path_str_child (p : PurePath) (s : str) :
  path_str (mkPath (root p) (parts p ++ [s])) = dir_prefix p ++ s.
Proof.
  unfold path_str, dir_prefix. cbn [root parts].
  assert (Hj : root p ++ join (py "/") (parts p ++ [s])
               = root p ++ match parts p with
                           | [] => []
                           | _ :: _ => join (py "/") (parts p) ++ py "/"
                           end ++ s).
  { destruct (parts p) as [|a ps] eqn:E; [done|].
    rewrite StripFacts.join_snoc by done. by rewrite <- !app_assoc. }
  rewrite <- app_assoc, <- Hj.
  destruct (root p); [|done]. by destruct (parts p).
Qed.

(** The name of a numbered file: [pre], the index, [suf]. *)
Lemma numbered_component (pre suf : str) (i : nat) :
  slashless pre → slashless suf → (2 ≤ length pre)%nat →
  component (pre ++ format_02d i ++ suf).
Proof.
  intros Hpre Hsuf Hlen. split; [|split].
  - apply Forall_app. split; [done|]. apply Forall_app. split; [|done].
    apply format_02d_slashless.
  - intros E. apply (f_equal length) in E. rewrite length_app in E. simpl in E. lia.
  - intros E. apply (f_equal length) in E. rewrite length_app in E.
    change (length (py ".")) with 1%nat in E. lia.
Qed.

Lemma numbered_path_str (p : PurePath) (pre suf : str) (i : nat) :
  slashless pre → slashless suf → (2 ≤ length pre)%nat →
  path_str (joinpath p (pre ++ format_02d i ++ suf))
  = dir_prefix p ++ pre ++ format_02d i ++ suf.
Proof.
  intros Hpre Hsuf Hlen.
  rewrite joinpath_component by by apply numbered_component.
  apply path_str_child.
Qed.

Lemma numbered_name_inj (p : PurePath) (pre suf : str) (i j : nat) :
  slashless pre → slashless suf → (2 ≤ length pre)%nat →
  path_str (joinpath p (pre ++ format_02d i ++ suf))
  = path_str (joinpath p (pre ++ format_02d j ++ suf)) →
  i = j.
Proof.
  intros Hpre Hsuf Hlen. rewrite !numbered_path_str by done. intros E.
  apply app_inv_head, app_inv_head, app_inv_tail in E.
  by apply format_02d_inj.
Qed.

Example paths_as_pathlib_writes_them :
  path_str (Path (py "shots/")) = py "shots"
  ∧ path_str (Path (py "")) = py "."
  ∧ path_str (Path (py "./a//b/./c/")) = py "a/b/c"
  ∧ path_str (Path (py "//srv/x")) = py "//srv/x"
  ∧ path_str (Path (py "///srv/x")) = py "/srv/x"
  ∧ path_str (Path (py "/")) = py "/"
  ∧ path_str (Path (py "a/../b")) = py "a/../b"
  ∧ path_str (joinpath (Path (py "")) (py "shot_01.png")) = py "shot_01.png"
  ∧ path_str (joinpath (Path (py "shots/")) (py "shot_01.png")) = py "shots/shot_01.png"
  ∧ path_str (joinpath (Path (py "/")) (py "shot_01.png")) = py "/shot_01.png"
  ∧ path_str (joinpath (Path (py "a")) (py "/b")) = py "/b".
Proof. vm_compute. by repeat split. Qed.

End NameFacts.

(** ** make_story.py: the main loop *)

Module StoryMain.
Import MakeStory NameFacts.

(** One element of the input list: the item's text fields and its
    [screenshot] key, [None] when the key is absent. *)
Record Job := mkJob { screenshot : option str; fields : Item }.

(** [f"story_{i:02d}.png"] *)
Definition story_name (i : nat) : str := py "story_" ++ format_02d i ++ py ".png".

Section Main.
Variable textlength : Font -> str -> Q.
Variable truetype : str -> Z -> option Font.
Variable load_default : Font.
(** [json.loads(Path(inp).read_text())]; [None] when it raises. *)
Variable load_json : str -> option (list Job).
(** [out_dir.mkdir(parents=True, exist_ok=True)] returned rather than
    raised. *)
Variable mkdir : str -> bool.
(** [Image.open(path).convert('RGB')] once the files of [written] have
    been saved; [None] when it raises. *)
Variable open_image : list (str * Canvas) -> str -> option Image.
(** The final [save] of [render] returned rather than raised. *)
Variable save : list (str * Canvas) -> str -> Canvas -> bool.

(** [render(it, out)] up to the final save, from the item as read;
    [None] when it raises. *)
Definition render_job (written : list (str * Canvas)) (j : Job) : option Canvas :=
  p ← screenshot j;
  shot ← open_image written p;
  render textlength truetype load_default shot (fields j).

(** The loop of [main] over [enumerate(items, start=1)]: the files
    written so far, and whether the loop ran to its end rather than
    being ended by an exception.  The [print] after each file is left
    out. *)
Fixpoint main_loop (out_dir : PurePath) (i : nat) (jobs : list Job)
    (written : list (str * Canvas)) : list (str * Canvas) * bool :=
  match jobs with
  | [] => (written, true)
  | j :: rest =>
      let out := joinpath out_dir (story_name i) in
      match render_job written j with
      | Some cv =>
          if save written (path_str out) cv
          then main_loop out_dir (S i) rest (written ++ [(path_str out, cv)])
          else (written, false)
      | None => (written, false)
      end
  end.

Definition main (inp out_dir : str) : list (str * Canvas) * bool :=
  match load_json (path_str (Path inp)) with
  | None => ([], false)
  | Some jobs =>
      if mkdir (path_str (Path out_dir))
      then main_loop (Path out_dir) 1 jobs []
      else ([], false)
  end.

End Main.

End StoryMain.

Module StoryMainFacts.
Import MakeStory NameFacts StoryMain.

(** The path of the story of index [i]. *)
Definition story_path (out_dir : str) (i : nat) : str :=
  path_str (joinpath (Path out_dir) (story_name i)).

(** The files for the canvases [cvs], numbered from [i]. *)
Definition numbered (out_dir : str) (i : nat) (cvs : list Canvas) : list (str * Canvas) :=
  imap (fun k cv => (story_path out_dir (i + k), cv)) cvs.

Lemma numbered_cons (out_dir : str) (i : nat) (cv : Canvas) (cvs : list Canvas) :
  numbered out_dir i (cv :: cvs) = (story_path out_dir i, cv) :: numbered out_dir (S i) cvs.
Proof.
  unfold numbered. rewrite imap_cons. rewrite Nat.add_0_r. f_equal.
  apply imap_ext. intros k cv' _. cbn. by rewrite Nat.add_succ_r.
Qed.

Lemma numbered_names (out_dir : str) (i : nat) (cvs : list Canvas) :
  (numbered out_dir i cvs).*1
  = (fun k => story_path out_dir (i + k)) <$> seq 0 (length cvs).
Proof.
  revert i. induction cvs as [|cv cvs IH]; intros i; [done|].
  rewrite numbered_cons. cbn [length seq]. rewrite !fmap_cons. cbn [fst].
  rewrite Nat.add_0_r. f_equal.
  rewrite <- fmap_S_seq, <- list_fmap_compose, IH.
  apply list_fmap_ext. intros _ k _. cbn. by rewrite Nat.add_succ_r.
Qed.

Lemma story_path_inj (out_dir : str) (i j : nat) :
  story_path out_dir i = story_path out_dir j → i = j.
Proof.
  apply numbered_name_inj; [by repeat constructor..|]. simpl. lia.
Qed.

Section Facts.
Variable textlength : Font -> str -> Q.
Variable truetype : str -> Z -> option Font.
Variable load_default : Font.
Variable open_image : list (str * Canvas) -> str -> option Image.
Variable save : list (str * Canvas) -> str -> Canvas -> bool.

Let render_job := render_job textlength truetype load_default open_image.

(** The item [j] of index [i] is rendered and saved as [cv] when the
    files of [written] are there. *)
Definition story_of (out_dir : str) (written : list (str * Canvas)) (i : nat)
    (j : Job) (cv : Canvas) : Prop :=
  render_job written j = Some cv ∧ save written (story_path out_dir i) cv = true.

(** Rendering or saving the item [j] of index [i] raises. *)
Definition story_fails (out_dir : str) (written : list (str * Canvas)) (i : nat)
    (j : Job) : Prop :=
  render_job written j = None
  ∨ ∃ cv, render_job written j = Some cv
          ∧ save written (story_path out_dir i) cv = false.

Lemma main_loop_numbered (out_dir : str) (i : nat) (jobs : list Job)
    (written : list (str * Canvas)) :
  ∃ cvs ok,
    main_loop textlength truetype load_default open_image save (Path out_dir) i jobs
      written
    = (written ++ numbered out_dir i cvs, ok)
    ∧ (∀ k j cv, jobs !! k = Some j → cvs !! k = Some cv →
         story_of out_dir (written ++ numbered out_dir i (take k cvs)) (i + k) j cv)
    ∧ (length cvs ≤ length jobs)%nat
    ∧ (if ok then length cvs = length jobs
       else ∃ j, jobs !! length cvs = Some j
                 ∧ story_fails out_dir (written ++ numbered out_dir i cvs)
                     (i + length cvs) j).
Proof.
  revert i written. induction jobs as [|j jobs IH]; intros i written.
  - exists [], true. cbn. rewrite app_nil_r. repeat split; done.
  - cbn [main_loop]. fold (story_path out_dir i).
    destruct (StoryMain.render_job _ _ _ _ written j) as [cv|] eqn:E.
    + destruct (save written (story_path out_dir i) cv) eqn:Es.
      * destruct (IH (S i) (written ++ [(story_path out_dir i, cv)]))
          as (cvs & ok & -> & Hall & Hlen & Hok).
        exists (cv :: cvs), ok. split; [|split; [|split]].
        -- rewrite numbered_cons, <- app_assoc. done.
        -- intros k j' cv' Hj Hcv. destruct k as [|k].
           ++ injection Hj as <-. injection Hcv as <-.
              cbn [take]. unfold numbered. cbn [imap]. rewrite app_nil_r, Nat.add_0_r.
              by split.
           ++ cbn [take]. rewrite numbered_cons.
              replace (i + S k)%nat with (S i + k)%nat by lia.
              specialize (Hall k j' cv' Hj Hcv).
              by rewrite <- app_assoc in Hall.
        -- cbn [length]. lia.
        -- cbn [length]. destruct ok; [lia|].
           destruct Hok as (j' & Hj' & Hf). exists j'. split; [done|].
           rewrite numbered_cons.
           replace (i + S (length cvs))%nat with (S i + length cvs)%nat by lia.
           by rewrite <- app_assoc in Hf.
      * exists [], false. cbn [numbered imap length]. rewrite app_nil_r, Nat.add_0_r.
        split; [done|]. split; [|split; [lia|]].
        -- intros k j' cv' _ Hk. by rewrite lookup_nil in Hk.
        -- exists j. split; [done|]. right. by exists cv.
    + exists [], false. cbn [numbered imap length]. rewrite app_nil_r, Nat.add_0_r.
      split; [done|]. split; [|split; [lia|]].
      * intros k j' cv' _ Hk. by rewrite lookup_nil in Hk.
      * exists j. split; [done|]. by left.
Qed.

End Facts.

(** X8: [main] writes story_01.png, story_02.png, ... under the output
    directory as pathlib writes its name, in order, one file per item
    and each holding that item's rendering, up to the first item whose
    rendering or saving raises; no two files have the same name.  It
    writes nothing when the input cannot be loaded or the directory
    cannot be made; otherwise it ends normally exactly when it has
    written a file for every item. *)
Theorem main_writes_numbered_stories (textlength : Font -> str -> Q)
    (truetype : str -> Z -> option Font) (load_default : Font)
    (load_json : str -> option (list Job)) (mkdir : str -> bool)
    (open_image : list (str * Canvas) -> str -> option Image)
    (save : list (str * Canvas) -> str -> Canvas -> bool)
    (inp out_dir : str) :
  ∃ cvs ok,
    main textlength truetype load_default load_json mkdir open_image save inp out_dir
    = (imap (fun k cv => (story_path out_dir (1 + k), cv)) cvs, ok)
    ∧ NoDup (imap (fun k cv => (story_path out_dir (1 + k), cv)) cvs).*1
    ∧ match load_json (path_str (Path inp)) with
      | None => cvs = [] ∧ ok = false
      | Some jobs =>
          if mkdir (path_str (Path out_dir))
          then
            (∀ k j cv, jobs !! k = Some j → cvs !! k = Some cv →
               story_of textlength truetype load_default open_image save out_dir
                 (numbered out_dir 1 (take k cvs)) (1 + k) j cv)
            ∧ (if ok then length cvs = length jobs
               else ∃ j, jobs !! length cvs = Some j
                         ∧ story_fails textlength truetype load_default open_image save
                             out_dir (numbered out_dir 1 cvs) (1 + length cvs) j)
          else cvs = [] ∧ ok = false
      end.
Proof.
  unfold main.
  destruct (load_json (path_str (Path inp))) as [jobs|].
  2: { exists [], false. repeat split. apply NoDup_nil_2. }
  destruct (mkdir (path_str (Path out_dir))).
  2: { exists [], false. repeat split. apply NoDup_nil_2. }
  destruct (main_loop_numbered textlength truetype load_default open_image save
              out_dir 1 jobs []) as (cvs & ok & Hmain & Hall & Hlen & Hok).
  exists cvs, ok. split; [exact Hmain|]. split.
  - fold (numbered out_dir 1 cvs). rewrite numbered_names.
    apply NoDup_fmap_2_strong; [|apply NoDup_seq].
    intros k1 k2 _ _ E. apply story_path_inj in E. lia.
  - split; [exact Hall|exact Hok].
Qed.

(** With [--out-dir out/] the first story is [out/story_01.png], and
    with an empty [--out-dir] it lands in the working directory. *)
Example story_paths :
  story_path (py "out/") 1 = py "out/story_01.png"
  ∧ story_path (py "") 1 = py "story_01.png"
  ∧ story_path (py "/srv//out/.") 12 = py "/srv/out/story_12.png"
  ∧ story_path (py "out") 123 = py "out/story_123.png".
Proof. vm_compute. by repeat split. Qed.

End StoryMainFacts.

(** ** Orchestrator: pairing, capture and the composer run *)

Module OrchestratorMore.
Import GenStories OrchestratorFacts NameFacts.

(** The items with their [screenshot] field, numbered from [i]. *)
Definition with_shots (args : Args) (i : nat) (its : list Item) : list Item :=
  imap (fun k item => <[py "screenshot" := shot_path args (i + k)]> item) its.

Lemma augment_present (stat_raises : gset str -> str -> bool) (args : Args)
    (its augmented : list Item) (i : nat) (w : World) :
  (∀ k, (k < length its)%nat → shot_path args (i + k) ∈ files w) →
  augment stat_raises args i its augmented w
  = (w, Ok (augmented ++ with_shots args i its)).
Proof.
  revert augmented i. induction its as [|item rest IH]; intros augmented i Hall.
  - cbn. by rewrite app_nil_r.
  - cbn [augment]. unfold bind, path_exists. fold (shot_path args i).
    rewrite bool_decide_eq_true_2.
    2: { specialize (Hall 0%nat). rewrite Nat.add_0_r in Hall. apply Hall. simpl. lia. }
    cbn [negb]. rewrite IH.
    + rewrite <- app_assoc. do 3 f_equal. unfold with_shots. rewrite imap_cons.
      cbn [app]. rewrite Nat.add_0_r. f_equal.
      apply imap_ext. intros k it _. cbn. by rewrite Nat.add_succ_r.
    + intros k Hk. replace (S i + k)%nat with (i + S k)%nat by lia.
      apply Hall. simpl. lia.
Qed.

(** X14: The screenshot paths expected for [n] items are pairwise distinct. *)
Theorem shot_paths_distinct (args : Args) (n : nat) :
  NoDup (shot_path args <$> seq 1 n).
Proof.
  apply NoDup_fmap_2_strong; [|apply NoDup_seq].
  intros i j _ _ E. unfold shot_path, shot_name in E.
  apply numbered_name_inj in E; [done|by repeat constructor..|simpl; lia].
Qed.

(** X15: When every expected screenshot exists, the augmenting step changes
    nothing on disk and returns the items in order, the [k]-th (from 0)
    with [screenshot] set to the path of shot [k + 1], as pathlib
    writes it, and its other keys untouched. *)
Theorem augment_pairs_by_index (stat_raises : gset str -> str -> bool)
    (args : Args) (its : list Item) (w : World) :
  (∀ k, (k < length its)%nat → shot_path args (1 + k) ∈ files w) →
  ∃ augmented,
    augment stat_raises args 1 its [] w = (w, Ok augmented)
    ∧ length augmented = length its
    ∧ (∀ k item, its !! k = Some item →
         ∃ aug, augmented !! k = Some aug
           ∧ aug !! py "screenshot" = Some (shot_path args (1 + k))
           ∧ ∀ key, key ≠ py "screenshot" → aug !! key = item !! key).
Proof.
  intros Hall. exists (with_shots args 1 its).
  split; [by rewrite augment_present|]. unfold with_shots.
  split; [apply length_imap|].
  intros k item Hk. eexists. split; [by rewrite list_lookup_imap, Hk|].
  split; [apply lookup_insert_eq|].
  intros key Hkey. by apply lookup_insert_ne.
Qed.

(** The disk of the example: the screenshot taken for [--shots-dir
    shots/] is there. *)
Definition shot_world : World := mkWorld {[ py "shots/shot_01.png" ]} [].

Lemma augment_pairs_by_index_witness :
  shot_path lone_args 1 = py "shots/shot_01.png"
  ∧ (∀ k, (k < length [lone_item])%nat → shot_path lone_args (1 + k) ∈ files shot_world)
  ∧ ∃ augmented,
      augment absent_only lone_args 1 [lone_item] [] shot_world
      = (shot_world, Ok augmented)
      ∧ length augmented = length [lone_item]
      ∧ (∀ k item, [lone_item] !! k = Some item →
           ∃ aug, augmented !! k = Some aug
             ∧ aug !! py "screenshot" = Some (shot_path lone_args (1 + k))
             ∧ ∀ key, key ≠ py "screenshot" → aug !! key = item !! key).
Proof.
  assert (Hall : ∀ k, (k < length [lone_item])%nat →
                      shot_path lone_args (1 + k) ∈ files shot_world).
  { intros k Hk. simpl in Hk. assert (k = 0%nat) as -> by lia.
    unfold shot_world. cbn [files]. apply elem_of_singleton. vm_compute. reflexivity. }
  split; [vm_compute; reflexivity|]. split; [exact Hall|].
  exact (augment_pairs_by_index absent_only lone_args [lone_item] shot_world Hall).
Defined.

End OrchestratorMore.

Module OrchestratorRun.
Import GenStories OrchestratorFacts OrchestratorMore.

(** The URL the capture loop reads from an item. *)
Definition item_url (item : Item) : str := strip (default [] (item !! py "url")).

(** X16: The capture loop uses the browser only for items whose URL is not
    blank, and then with the item's stripped URL and the path of the
    item's own index, as pathlib writes it (items without URL are
    passed over without shifting the numbering): two browsers that
    agree on those calls give the same run.  [i] is the index of the
    first item, 1 in [main]. *)
Theorem capture_calls_by_index
    (ts ts' : str -> str -> str -> Z -> Sys unit)
    (args : Args) (its : list Item) (i : nat) (w : World) :
  (∀ k item fs, its !! k = Some item → item_url item ≠ [] →
     ts (item_url item) (shot_path args (i + k)) (browser args) (timeout args) fs
     = ts' (item_url item) (shot_path args (i + k)) (browser args) (timeout args) fs) →
  capture ts args i its w = capture ts' args i its w.
Proof.
  revert i w. induction its as [|item rest IH]; intros i w Hsame; [done|].
  assert (Hrest : ∀ w', capture ts args (S i) rest w' = capture ts' args (S i) rest w').
  { intros w'. apply IH. intros k it fs Hk Hu.
    replace (S i + k)%nat with (i + S k)%nat by lia. by apply Hsame. }
  cbn [capture]. fold (item_url item).
  destruct (truthy (item_url item)) eqn:E; cbn [negb]; [|apply Hrest].
  unfold bind, call. fold (shot_path args i).
  specialize (Hsame 0%nat item (files w) eq_refl).
  rewrite Nat.add_0_r in Hsame. rewrite Hsame by (by apply PyStrFacts.truthy_true).
  destruct (ts' _ _ _ _ _) as [fs [[]|s]]; [apply Hrest|done].
Qed.

(** A browser that saves only the first shot of [shots/]. *)
Definition saves_first (u p b : str) (t : Z) : Sys unit :=
  fun fs =>
    if decide (p = py "shots/shot_01.png") then ({[p]} ∪ fs, Ok tt)
    else (fs, Err Uncaught).

Definition blank_item : Item := {[ py "url" := py "   " ]}.

Lemma capture_calls_by_index_witness :
  (∀ k item fs, [lone_item; blank_item] !! k = Some item → item_url item ≠ [] →
     saves (item_url item) (shot_path lone_args (1 + k)) (browser lone_args)
       (timeout lone_args) fs
     = saves_first (item_url item) (shot_path lone_args (1 + k)) (browser lone_args)
         (timeout lone_args) fs)
  ∧ capture saves lone_args 1 [lone_item; blank_item] lone_world
    = capture saves_first lone_args 1 [lone_item; blank_item] lone_world.
Proof.
  assert (Hsame : ∀ k item fs, [lone_item; blank_item] !! k = Some item →
            item_url item ≠ [] →
            saves (item_url item) (shot_path lone_args (1 + k)) (browser lone_args)
              (timeout lone_args) fs
            = saves_first (item_url item) (shot_path lone_args (1 + k))
                (browser lone_args) (timeout lone_args) fs).
  { intros k item fs Hk Hu. destruct k as [|[|k]]; [| |done].
    - unfold saves, saves_first. rewrite decide_True; [done|].
      vm_compute. reflexivity.
    - injection Hk as <-. exfalso. apply Hu. vm_compute. reflexivity. }
  split; [exact Hsame|].
  exact (capture_calls_by_index saves saves_first lone_args [lone_item; blank_item]
           1 lone_world Hsame).
Defined.

(** The composer's script and command line. *)
Definition composer_script (script_dir : PurePath) : str :=
  path_str (joinpath script_dir (py "make_story.py")).
Definition composer_cmd (executable : str) (script_dir : PurePath) (tmp_path : str)
    (args : Args) : list str :=
  [executable; composer_script script_dir; py "--in"; tmp_path;
   py "--out-dir"; path_str (Path (out_dir args))].

Section Composer.
Variable stat_raises : gset str -> str -> bool.
Variable write_temp : list Item -> Sys str.
Variable run_composer : list str -> Sys Z.
Variable unlink : str -> Sys unit.
Variable executable : str.
Variable script_dir : PurePath.

(** How the composer step ends once the temporary file [tmp] is
    written, [fs1] being the paths that exist then; [then_] is what
    follows a composer run that returned 0. *)
Definition composer_outcome (args : Args) (tmp : str) (fs1 : gset str)
    (runs : list (list str)) (then_ : M unit) : World * result unit :=
  let cmd := composer_cmd executable script_dir tmp args in
  if bool_decide (composer_script script_dir ∈ fs1)
  then
    match run_composer cmd fs1 with
    | (fs2, Err s) => (mkWorld fs2 (runs ++ [cmd]), Err s)
    | (fs2, Ok rc) =>
        match unlink (path_str (Path tmp)) fs2 with
        | (fs3, Err s) => (mkWorld fs3 (runs ++ [cmd]), Err s)
        | (fs3, Ok _) =>
            if rc =? 0 then then_ (mkWorld fs3 (runs ++ [cmd]))
            else (mkWorld fs3 (runs ++ [cmd]), Err (SysExit (msg_composer_failed rc)))
        end
    end
  else if stat_raises fs1 (composer_script script_dir)
  then (mkWorld fs1 runs, Err Uncaught)
  else (mkWorld fs1 runs, Err (SysExit (msg_no_composer (composer_script script_dir)))).

Lemma compose_then (args : Args) (augmented : list Item) (then_ : M unit)
    (w : World) (tmp : str) (fs1 : gset str) :
  write_temp augmented (files w) = (fs1, Ok tmp) →
  bind (compose stat_raises write_temp run_composer unlink executable script_dir args
          augmented)
    (fun _ => then_) w
  = composer_outcome args tmp fs1 (composer_runs w) then_.
Proof.
  intros Htmp. unfold compose, composer_outcome, composer_cmd, composer_script.
  unfold bind, call, path_exists. rewrite Htmp. cbn [files composer_runs].
  destruct (bool_decide _); cbn [negb files composer_runs];
    [|by destruct (stat_raises _ _)].
  destruct (run_composer _ fs1) as [fs2 [rc|s]]; cbn [files composer_runs]; [|done].
  destruct (unlink _ fs2) as [fs3 [[]|s]]; [|done].
  unfold sys_exit, ret. by destruct (rc =? 0).
Qed.

(** The composer step runs the composer at most once, on the command
    line of [composer_cmd]; and it ends normally only when the
    composer returned 0. *)
Lemma compose_runs (args : Args) (augmented : list Item) (w : World) :
  let out := compose stat_raises write_temp run_composer unlink executable script_dir
               args augmented w in
  (composer_runs out.1 = composer_runs w ∧ ∃ s, out.2 = Err s)
  ∨ ∃ tmp fs,
      composer_runs out.1
      = composer_runs w ++ [composer_cmd executable script_dir tmp args]
      ∧ (out.2 = Ok tt →
         (run_composer (composer_cmd executable script_dir tmp args) fs).2 = Ok 0).
Proof.
  unfold compose, composer_cmd, composer_script, bind, call, path_exists.
  destruct (write_temp augmented (files w)) as [fs1 [tmp|s]]; [|left; cbn; eauto].
  cbn [files composer_runs].
  destruct (bool_decide _); cbn [negb files composer_runs];
    [|left; destruct (stat_raises _ _); cbn; eauto].
  right. exists tmp, fs1.
  destruct (run_composer _ fs1) as [fs2 [rc|s]] eqn:Erun; cbn [files composer_runs];
    [|by cbn].
  destruct (unlink _ fs2) as [fs3 [[]|s]]; [|by cbn].
  unfold sys_exit, ret.
  destruct (Z.eqb_spec rc 0) as [->|]; cbn; [|by split].
  split; [done|]. done.
Qed.

End Composer.

(** X18: Once the items are loaded, the directories are made, the capture
    step is over, every expected screenshot exists and the temporary
    file is written, [main] goes on as follows.  If make_story.py is
    not beside the script it exits with a message (or ends with the
    exception of [os.stat], when that fails otherwise than for
    absence), leaving the temporary file behind and the composer not
    run.  Otherwise it runs
    the composer once, on the temporary file and the output directory
    as pathlib writes it; if that raises, so does [main]; if not it
    removes the temporary file whatever the return code, and then exits
    with a message naming the code when that is not 0, and goes on to
    the summary, which decides how the run ends, when it is 0. *)
Theorem main_composer_outcome (stat_raises : gset str -> str -> bool)
    (load_json : gset str -> str -> option (list Item))
    (mkdir : str -> Sys unit)
    (take_screenshot : str -> str -> str -> Z -> Sys unit)
    (write_temp : list Item -> Sys str) (run_composer : list str -> Sys Z)
    (unlink : str -> Sys unit) (summary : str -> Sys unit)
    (executable : str) (script_dir : PurePath)
    (args : Args) (w w1 : World) (its : list Item) (tmp : str) (fs1 : gset str) :
  path_str (Path (items args)) ∈ files w →
  load_json (files w) (path_str (Path (items args))) = Some its →
  its ≠ [] →
  prepare mkdir take_screenshot args its w = (w1, Ok tt) →
  (∀ k, (k < length its)%nat → shot_path args (1 + k) ∈ files w1) →
  write_temp (with_shots args 1 its) (files w1) = (fs1, Ok tmp) →
  let cmd := composer_cmd executable script_dir tmp args in
  let runs := composer_runs w ++ [cmd] in
  main stat_raises load_json mkdir take_screenshot write_temp run_composer unlink
    summary executable script_dir args w
  = if bool_decide (composer_script script_dir ∈ fs1)
    then
      match run_composer cmd fs1 with
      | (fs2, Err s) => (mkWorld fs2 runs, Err s)
      | (fs2, Ok rc) =>
          match unlink (path_str (Path tmp)) fs2 with
          | (fs3, Err s) => (mkWorld fs3 runs, Err s)
          | (fs3, Ok _) =>
              if rc =? 0
              then (mkWorld (summary (path_str (Path (out_dir args))) fs3).1 runs,
                    (summary (path_str (Path (out_dir args))) fs3).2)
              else (mkWorld fs3 runs, Err (SysExit (msg_composer_failed rc)))
          end
      end
    else if stat_raises fs1 (composer_script script_dir)
    then (mkWorld fs1 (composer_runs w), Err Uncaught)
    else (mkWorld fs1 (composer_runs w),
          Err (SysExit (msg_no_composer (composer_script script_dir)))).
Proof.
  intros Hin Hload Hne Hprep Hall Htmp cmd runs.
  rewrite (main_after_load _ _ _ _ _ _ _ _ _ _ _ its) by done. rewrite Hprep.
  assert (Hruns : composer_runs w1 = composer_runs w).
  { pose proof (prepare_runs mkdir take_screenshot args its w) as Hr.
    by rewrite Hprep in Hr. }
  unfold finish. unfold bind at 1.
  rewrite (augment_present stat_raises args its [] 1 w1 Hall).
  cbn [app]. rewrite (compose_then _ _ _ _ _ _ _ _ _ _ tmp fs1) by done.
  unfold composer_outcome. rewrite Hruns. fold cmd. fold runs.
  destruct (bool_decide _); [|done].
  destruct (run_composer cmd fs1) as [fs2 [rc|s]]; [|done].
  destruct (unlink _ fs2) as [fs3 [[]|s]]; [|done].
  destruct (rc =? 0); [|done].
  unfold call. cbn [files composer_runs]. by destruct (summary _ fs3).
Qed.

(** A run in which everything is in place. *)
Definition ready_world : World :=
  mkWorld ({[ py "shots/shot_01.png" ]}
           ∪ ({[ py "/app/scripts/make_story.py" ]} ∪ {[ py "items.json" ]})) [].

(** [ready_world] once both directories are made. *)
Definition ready_dirs : World :=
  mkWorld ({[ py "out" ]} ∪ ({[ py "shots" ]} ∪ files ready_world)) [].

Lemma main_composer_outcome_witness :
  path_str (Path (items lone_args)) ∈ files ready_world
  ∧ one_item (files ready_world) (path_str (Path (items lone_args))) = Some [lone_item]
  ∧ [lone_item] ≠ []
  ∧ prepare makes saves lone_args [lone_item] ready_world = (ready_dirs, Ok tt)
  ∧ (∀ k, (k < length [lone_item])%nat →
          shot_path lone_args (1 + k) ∈ files ready_dirs)
  ∧ tmp_json (with_shots lone_args 1 [lone_item]) (files ready_dirs)
    = ({[ py "/tmp/tmp1.json" ]} ∪ files ready_dirs, Ok (py "/tmp/tmp1.json"))
  ∧ composer_cmd (py "python3") scripts (py "/tmp/tmp1.json") lone_args
    = [py "python3"; py "/app/scripts/make_story.py"; py "--in"; py "/tmp/tmp1.json";
       py "--out-dir"; py "out"]
  ∧ main absent_only one_item makes saves tmp_json composes removes lists (py "python3") scripts
      lone_args ready_world
    = (mkWorld (({[ py "out/story_01.png" ]}
                 ∪ ({[ py "/tmp/tmp1.json" ]} ∪ files ready_dirs))
                ∖ {[ py "/tmp/tmp1.json" ]})
         [composer_cmd (py "python3") scripts (py "/tmp/tmp1.json") lone_args],
       Ok tt).
Proof.
  assert (Hin : path_str (Path (items lone_args)) ∈ files ready_world).
  { unfold ready_world. cbn [files].
    rewrite !elem_of_union, !elem_of_singleton. right; right.
    vm_compute. reflexivity. }
  assert (Hall : ∀ k, (k < length [lone_item])%nat →
            shot_path lone_args (1 + k) ∈ files ready_dirs).
  { intros k Hk. simpl in Hk. assert (k = 0%nat) as -> by lia.
    unfold ready_dirs, ready_world. cbn [files].
    rewrite !elem_of_union, !elem_of_singleton. right; right; left.
    vm_compute. reflexivity. }
  assert (Hne : [lone_item] ≠ []) by discriminate.
  split; [exact Hin|]. split; [reflexivity|]. split; [exact Hne|].
  split; [reflexivity|]. split; [exact Hall|]. split; [reflexivity|].
  split; [vm_compute; reflexivity|].
  rewrite (main_composer_outcome absent_only one_item makes saves tmp_json composes removes lists
             (py "python3") scripts lone_args ready_world ready_dirs
             [lone_item] (py "/tmp/tmp1.json")
             ({[ py "/tmp/tmp1.json" ]} ∪ files ready_dirs)
             Hin eq_refl Hne eq_refl Hall eq_refl).
  rewrite bool_decide_eq_true_2; [reflexivity|].
  unfold ready_dirs, ready_world. cbn [files].
  rewrite !elem_of_union, !elem_of_singleton. right; right; right; right; left.
  vm_compute. reflexivity.
Defined.

(** X19: Whatever the disk, the loader, [mkdir], the browser, the
    composer and the other calls do, [main] runs the composer at most
    once, and then on the command line made of the interpreter,
    make_story.py beside the script, the temporary file and the output
    directory as pathlib writes it; a run in which the composer was not
    run does not end normally; and [main] ends normally only after a
    composer run that returned 0. *)
Theorem composer_run_at_most_once (stat_raises : gset str -> str -> bool)
    (load_json : gset str -> str -> option (list Item))
    (mkdir : str -> Sys unit)
    (take_screenshot : str -> str -> str -> Z -> Sys unit)
    (write_temp : list Item -> Sys str) (run_composer : list str -> Sys Z)
    (unlink : str -> Sys unit) (summary : str -> Sys unit)
    (executable : str) (script_dir : PurePath) (args : Args) (w : World) :
  let out := main stat_raises load_json mkdir take_screenshot write_temp run_composer
               unlink summary executable script_dir args w in
  (composer_runs out.1 = composer_runs w ∧ ∃ s, out.2 = Err s)
  ∨ ∃ tmp fs,
      composer_runs out.1
      = composer_runs w ++ [composer_cmd executable script_dir tmp args]
      ∧ (out.2 = Ok tt →
         (run_composer (composer_cmd executable script_dir tmp args) fs).2 = Ok 0).
Proof.
  intros out. subst out.
  destruct (decide (path_str (Path (items args)) ∈ files w)) as [Hin|Hout].
  2: { left. unfold main, load_items, bind, path_exists.
       rewrite bool_decide_eq_false_2 by done.
       destruct (stat_raises _ _); cbn; eauto. }
  destruct (load_json (files w) (path_str (Path (items args))))
    as [[|item rest]|] eqn:Hload.
  1,3: left; unfold main, load_items, bind, path_exists;
       rewrite bool_decide_eq_true_2 by done; cbn [negb]; rewrite Hload; cbn; eauto.
  rewrite (main_after_load _ _ _ _ _ _ _ _ _ _ _ (item :: rest)) by done.
  pose proof (prepare_runs mkdir take_screenshot args (item :: rest) w) as Hruns.
  destruct (prepare _ _ _ _ w) as [w1 [[]|s]]; cbn [fst] in Hruns.
  2: { left. cbn. eauto. }
  unfold finish, bind.
  pose proof (augment_world stat_raises args (item :: rest) [] 1 w1) as Hw.
  destruct (augment stat_raises args 1 (item :: rest) [] w1) as [w2 [aug|s]];
    cbn [fst] in Hw; subst w2.
  2: { left. cbn. eauto. }
  pose proof (compose_runs stat_raises write_temp run_composer unlink executable
                script_dir args aug w1) as Hc. cbn zeta in Hc.
  destruct (compose _ _ _ _ _ _ _ aug w1) as [w3 [[]|s]]; cbn [fst snd] in Hc.
  - destruct Hc as [[_ [s Hs]]|(tmp & fs & Hr & Hrc)]; [done|].
    right. exists tmp, fs.
    rewrite call_runs. rewrite Hr, Hruns. split; [done|]. intros _. by apply Hrc.
  - destruct Hc as [[Hr _]|(tmp & fs & Hr & _)].
    + left. cbn. rewrite Hr, Hruns. eauto.
    + right. exists tmp, fs. cbn. rewrite Hr, Hruns. by split.
Qed.

End OrchestratorRun.

(** ** Feed picker: feed file, de-duplication, ordering and output *)

Module PickerMore.
Import PickAiNews PyStrFacts StripFacts DedupeFacts SortFacts SortProofs RecencyFacts.

(** A stripped line that names a feed: not empty and not a comment. *)
Definition feed_line (s : str) : Prop :=
  truthy s = true ∧ starts_with (py "#") s = false.

Global Instance feed_line_dec (s : str) : Decision (feed_line s).
Proof. unfold feed_line. apply _. Defined.

Lemma read_feeds_filter (lines : list str) :
  read_feeds lines = filter feed_line (strip <$> lines).
Proof.
  induction lines as [|ln lines IH]; [done|].
  cbn [read_feeds]. rewrite fmap_cons, filter_cons.
  destruct (truthy (strip ln)) eqn:Et, (starts_with (py "#") (strip ln)) eqn:Es;
    cbn [negb orb].
  - rewrite decide_False; [done|]. intros [_ ?]. congruence.
  - rewrite decide_True by (by split). by rewrite IH.
  - rewrite decide_False; [done|]. intros [? _]. congruence.
  - rewrite decide_False; [done|]. intros [? _]. congruence.
Qed.

(** X9: [read_feeds] keeps, in file order, the stripped lines that are
    neither empty nor comments (a ['#'] after leading blanks counts as a
    comment); every feed it returns is non-empty, stripped and not a
    comment; and reading its own output again changes nothing. *)
Theorem read_feeds_keeps_feed_lines (lines : list str) :
  read_feeds lines = filter feed_line (strip <$> lines)
  ∧ Forall (fun s => s ≠ [] ∧ strip s = s ∧ starts_with (py "#") s = false)
      (read_feeds lines)
  ∧ read_feeds (read_feeds lines) = read_feeds lines.
Proof.
  assert (Hall : Forall (fun s => s ≠ [] ∧ strip s = s
                                  ∧ starts_with (py "#") s = false)
                   (read_feeds lines)).
  { rewrite read_feeds_filter. apply Forall_forall.
    intros s [[Ht Hs] Hin]%list_elem_of_filter.
    apply list_elem_of_fmap in Hin as (ln & -> & _).
    split; [by apply truthy_true|]. split; [apply strip_idemp|done]. }
  split; [apply read_feeds_filter|]. split; [exact Hall|].
  induction Hall as [|s l (Hne & Hstrip & Hc) _ IH]; [done|].
  cbn [read_feeds]. rewrite Hstrip, Hc.
  apply truthy_true in Hne as ->. cbn [negb orb]. by rewrite IH.
Qed.

Example read_feeds_example :
  read_feeds [py "# feeds"; py ""; py "  https://a.test/rss "; py "   # off";
              py "https://b.test/rss"]
  = [py "https://a.test/rss"; py "https://b.test/rss"].
Proof. vm_compute. reflexivity. Qed.

Lemma firsts_sublist (seen : gset str) (cands : list Candidate) :
  firsts seen cands `sublist_of` cands.
Proof.
  revert seen. induction cands as [|c cands IH]; intros seen; simpl; [done|].
  case_decide; [by apply sublist_cons|by apply sublist_skip].
Qed.

Lemma firsts_urls (seen : gset str) (cands : list Candidate) (u : str) :
  u ∈ url <$> cands → u ∉ seen → u ∈ url <$> firsts seen cands.
Proof.
  revert seen. induction cands as [|c cands IH]; intros seen; simpl.
  - by intros ?%elem_of_nil.
  - intros Hu Hseen.
    destruct (decide (url c ∈ seen)) as [Hin|Hout].
    + apply elem_of_cons in Hu as [->|Hu]; [done|]. by apply IH.
    + rewrite ?fmap_cons. destruct (decide (u = url c)) as [->|Hne].
      * apply list_elem_of_here.
      * apply list_elem_of_further. apply elem_of_cons in Hu as [?|Hu]; [done|].
        apply IH; [done|]. rewrite not_elem_of_union, not_elem_of_singleton. by split.
Qed.

(** A list without repeated URLs is left as it is. *)
Lemma firsts_NoDup_id (seen : gset str) (cands : list Candidate) :
  NoDup (url <$> cands) → (∀ c, c ∈ cands → url c ∉ seen) → firsts seen cands = cands.
Proof.
  revert seen. induction cands as [|c cands IH]; intros seen Hnd Hseen; simpl; [done|].
  rewrite ?fmap_cons in Hnd. apply NoDup_cons in Hnd as [Hc Hnd].
  rewrite decide_False by (apply Hseen, list_elem_of_here).
  f_equal. apply IH; [done|]. intros c' Hc'.
  rewrite not_elem_of_union, not_elem_of_singleton. split.
  - intros E. apply Hc. rewrite <- E. by apply list_elem_of_fmap_2.
  - by apply Hseen, list_elem_of_further.
Qed.

(** X11: De-duplication keeps the candidates it keeps in discovery order,
    loses no URL and invents none, and applied to its own result
    changes nothing. *)
Theorem dedupe_order_urls_idempotent (cands : list Candidate) :
  dedupe cands `sublist_of` cands
  ∧ (∀ u, u ∈ url <$> dedupe cands ↔ u ∈ url <$> cands)
  ∧ dedupe (dedupe cands) = dedupe cands.
Proof.
  rewrite !dedupe_firsts. split; [apply firsts_sublist|]. split.
  - intros u. split.
    + intros (c & -> & Hc)%list_elem_of_fmap. apply list_elem_of_fmap_2.
      eapply elem_of_sublist; [exact Hc|apply firsts_sublist].
    + intros Hu. apply firsts_urls; [done|apply not_elem_of_empty].
  - apply firsts_NoDup_id; [apply firsts_NoDup|]. intros c _. apply not_elem_of_empty.
Qed.

(** Sorting a list that is already newest first returns it. *)
Lemma sort_reverse_sorted_id {A} (key : A -> str) (l : list A) :
  StronglySorted (newest_first key) l → sort_reverse key l = l.
Proof.
  induction 1 as [|x l Hl IH Hx]; [done|].
  cbn [sort_reverse foldr]. fold (sort_reverse key l). rewrite IH.
  destruct l as [|y l]; [done|]. cbn [insert_desc].
  apply Forall_cons in Hx as [Hxy _]. unfold newest_first, str_ge in Hxy.
  by rewrite Hxy.
Qed.

(** X12: A candidate list that is already newest first (later keys never
    above earlier ones) comes out of the sort unchanged; so sorting
    twice is sorting once. *)
Theorem sort_leaves_sorted_alone (l : list Candidate) :
  StronglySorted (fun a b => str_ltb (sort_key a) (sort_key b) = false) l →
  sort_reverse sort_key l = l
  ∧ sort_reverse sort_key (sort_reverse sort_key l) = sort_reverse sort_key l.
Proof.
  intros Hl. rewrite !(sort_reverse_sorted_id sort_key l Hl). done.
Qed.

Lemma sort_leaves_sorted_alone_witness :
  StronglySorted (fun a b => str_ltb (sort_key a) (sort_key b) = false)
    (sort_reverse sort_key shelf)
  ∧ sort_reverse sort_key (sort_reverse sort_key shelf) = sort_reverse sort_key shelf
  ∧ sort_reverse sort_key (sort_reverse sort_key (sort_reverse sort_key shelf))
    = sort_reverse sort_key (sort_reverse sort_key shelf).
Proof.
  split; [apply sort_reverse_sorted|].
  exact (sort_leaves_sorted_alone (sort_reverse sort_key shelf)
           (sort_reverse_sorted sort_key shelf)).
Defined.

Lemma elem_of_concat {A} (x : A) (ls : list (list A)) :
  x ∈ concat ls → ∃ l, l ∈ ls ∧ x ∈ l.
Proof.
  induction ls as [|l ls IH]; simpl; [by intros ?%elem_of_nil|].
  intros [Hx|Hx]%elem_of_app.
  - exists l. split; [apply list_elem_of_here|done].
  - destruct (IH Hx) as (l' & Hl' & Hx'). exists l'.
    split; [by apply list_elem_of_further|done].
Qed.

Section Provenance.
Variable KEYWORDS_search : str -> bool.
Variable isoformat : datetime -> str.
Variable parse : str -> Parsed.

(** What a candidate says about the entry it was made from. *)
Definition made_from (cutoff : datetime) (src : str) (e : Entry) (c : Candidate) : Prop :=
  KEYWORDS_search (blob e) = true
  ∧ (∃ when, parse_dt e = Some when
       ∧ (∀ t, when = Some t → cutoff <= t)
       ∧ published c
         = (fun t => replace (py "+00:00") (py "Z") (isoformat t)) <$> when)
  ∧ url c = link e ∧ url c ≠ [] ∧ strip (url c) = url c
  ∧ title c = strip (or_else (e_title e) [])
  ∧ source c = src.

Lemma candidate_of_Some (cutoff : datetime) (src : str) (e : Entry) (c : Candidate) :
  candidate_of KEYWORDS_search isoformat cutoff src e = Some (Some c) →
  made_from cutoff src e c.
Proof.
  unfold candidate_of, made_from. fold (blob e). fold (link e).
  destruct (KEYWORDS_search (blob e)); cbn [negb]; [|done].
  destruct (parse_dt e) as [[t|]|] eqn:Et; cbn [mbind option_bind]; [| |done].
  - destruct (Z.ltb_spec t cutoff); [done|].
    destruct (truthy (link e)) eqn:El; cbn [negb]; [|done].
    intros [= <-]. cbn. split; [done|]. split.
    + exists (Some t). split; [done|]. split; [|done]. intros t' [= <-]. lia.
    + repeat split; try done; [by apply truthy_true|apply strip_idemp].
  - destruct (truthy (link e)) eqn:El; cbn [negb]; [|done].
    intros [= <-]. cbn. split; [done|]. split.
    + exists None. by repeat split.
    + repeat split; try done; [by apply truthy_true|apply strip_idemp].
Qed.

(** The loop body raises exactly on a keyword match whose time tuple
    the datetime constructor refuses. *)
Lemma candidate_of_raises (cutoff : datetime) (src : str) (e : Entry) :
  candidate_of KEYWORDS_search isoformat cutoff src e = None
  ↔ KEYWORDS_search (blob e) = true ∧ parse_dt e = None.
Proof.
  unfold candidate_of. fold (blob e). fold (link e).
  destruct (KEYWORDS_search (blob e)); cbn [negb]; [|by split; [|intros [? _]]].
  destruct (parse_dt e) as [when|]; cbn [mbind option_bind]; [|done].
  split; [|by intros [_ ?]].
  by destruct (match when with Some t => t <? cutoff | None => false end),
       (truthy (link e)).
Qed.

Lemma scan_feeds_elem (cutoff : datetime) (feeds : list str)
    (found : list Candidate) (c : Candidate) :
  scan_feeds KEYWORDS_search isoformat parse cutoff feeds [] = Some found →
  c ∈ found →
  ∃ u e, u ∈ feeds ∧ e ∈ entries (parse u)
         ∧ made_from cutoff (source_of parse u) e c.
Proof.
  rewrite scan_feeds_concat. cbn [app].
  destruct (mapM _ feeds) as [ls|] eqn:Els; [|done]. intros [= <-].
  intros (l & Hl & Hc)%elem_of_concat.
  apply mapM_Some_1 in Els.
  apply list_elem_of_lookup in Hl as [i Hi].
  destruct (Forall2_lookup_r _ _ _ _ _ Els Hi) as (u & Hu & Hfu).
  unfold feed_candidates in Hfu.
  destruct (mapM _ (entries (parse u))) as [rs|] eqn:Ers; [|done].
  injection Hfu as <-.
  apply list_elem_of_omap in Hc as (r & Hr & Hrc). cbn in Hrc. subst r.
  apply mapM_Some_1 in Ers.
  apply list_elem_of_lookup in Hr as [j Hj].
  destruct (Forall2_lookup_r _ _ _ _ _ Ers Hj) as (e & He & Hce).
  exists u, e. split; [by eapply list_elem_of_lookup_2|].
  split; [by eapply list_elem_of_lookup_2|]. by apply candidate_of_Some.
Qed.


End Provenance.

(** X20: The loop body appends a candidate for an entry exactly when the
    entry's title and summary match the keywords, its time tuple, if
    it has one, makes a datetime that is not before the cutoff, and
    its stripped link is not empty; and it raises exactly when the
    entry matches the keywords and its time tuple is one the datetime
    constructor refuses. *)
Theorem candidate_qualifies (KEYWORDS_search : str -> bool)
    (isoformat : datetime -> str) (cutoff : datetime) (src : str) (e : Entry) :
  ((∃ c, candidate_of KEYWORDS_search isoformat cutoff src e = Some (Some c))
   ↔ KEYWORDS_search (blob e) = true
     ∧ (∃ when, parse_dt e = Some when ∧ ∀ t, when = Some t → cutoff <= t)
     ∧ link e ≠ [])
  ∧ (candidate_of KEYWORDS_search isoformat cutoff src e = None
     ↔ KEYWORDS_search (blob e) = true
       ∧ ∃ t, entry_time e = Some t ∧ make_datetime t = None).
Proof.
  split.
  - split.
    + intros [c Hc]. apply candidate_of_Some in Hc.
      destruct Hc as (Hk & (when & Hw & Ht & _) & Hu & Hne & _).
      rewrite Hu in Hne. eauto 6.
    + intros (Hk & (when & Hw & Ht) & Hl). unfold candidate_of.
      fold (blob e). fold (link e).
      rewrite Hk, Hw. cbn [negb mbind option_bind].
      apply truthy_true in Hl as ->. cbn [negb].
      destruct when as [t|]; [|by eexists].
      destruct (Z.ltb_spec t cutoff) as [Hlt|]; [|by eexists].
      specialize (Ht t eq_refl). lia.
  - rewrite candidate_of_raises. unfold parse_dt.
    destruct (entry_time e) as [t|].
    + destruct (make_datetime t) eqn:Em; cbn [mbind option_bind].
      * split; [by intros [_ ?]|]. intros (_ & t' & [= <-] & ?). congruence.
      * split; [|by intros [? _]]. intros [? _]. eauto.
    + split; [by intros [_ ?]|]. by intros (_ & t' & ? & _).
Qed.

(** X10: When the scan of the feeds completes, every candidate found
    comes from an entry of one of the feeds read: the entry matches the
    keywords, its time tuple, if any, makes a datetime that is not
    before the cutoff, and it has a non-blank link, which stripped is
    the candidate's URL; the title is the entry's stripped title, the
    source is the feed's title, else its link, else its URL, and the
    published text is made from the entry's time when it has one. *)
Theorem scan_feeds_provenance (KEYWORDS_search : str -> bool)
    (isoformat : datetime -> str) (parse : str -> Parsed)
    (cutoff : datetime) (feeds : list str) (found : list Candidate) :
  scan_feeds KEYWORDS_search isoformat parse cutoff feeds [] = Some found →
  Forall (fun c =>
            ∃ u e, u ∈ feeds ∧ e ∈ entries (parse u)
              ∧ made_from KEYWORDS_search isoformat cutoff
                  (or_else (feed_title (parse u)) (or_else (feed_link (parse u)) u)) e c)
    found.
Proof.
  intros Hf. apply Forall_forall. intros c Hc.
  by eapply scan_feeds_elem in Hc.
Qed.

Definition fresh_entry : Entry :=
  mkEntry (Some (py "New GPU")) (Some (py "https://x.test/gpu")) None None None.
Definition dated_entry : Entry :=
  mkEntry (Some (py "AI agents")) (Some (py "https://x.test/agents")) None
    None (Some (mkTime 2025 11 4 9 30 0)).
Definition one_feed (u : str) : Parsed :=
  mkParsed (Some (py "Feed")) None [old_entry; fresh_entry; dated_entry].

(** The one time text the examples need. *)
Definition stamp (t : datetime) : str := py "2025-11-04T09:30:00+00:00".

(** The candidates of the example feed at [noon], with a window of a
    day: the entry of the day before is left out. *)
Definition found_at_noon : list Candidate :=
  [mkCandidate (py "New GPU") (py "https://x.test/gpu") (py "Feed") None;
   mkCandidate (py "AI agents") (py "https://x.test/agents") (py "Feed")
     (Some (py "2025-11-04T09:30:00Z"))].

Lemma scan_feeds_provenance_witness :
  scan_feeds (fun _ => true) stamp one_feed
    (instant (mkTime 2025 11 3 12 0 0)) [py "https://x.test/rss"] []
  = Some found_at_noon
  ∧ Forall (fun c => ∃ e, e ∈ [old_entry; fresh_entry; dated_entry] ∧ url c = link e)
      found_at_noon.
Proof.
  assert (Hs : scan_feeds (fun _ => true) stamp one_feed
                 (instant (mkTime 2025 11 3 12 0 0)) [py "https://x.test/rss"] []
               = Some found_at_noon) by (vm_compute; reflexivity).
  split; [exact Hs|].
  eapply Forall_impl;
    [exact (scan_feeds_provenance _ _ _ _ _ _ Hs)|].
  intros c (u & e & _ & He & Hm). exists e. split; [exact He|].
  by destruct Hm as (_ & _ & Hu & _).
Defined.





End PickerMore.
